(** * Risk rules of Principal Mapper: [principalmapper/analysis/find_risks.py]

    A shallow embedding of the finding-generating rules, of the cycle search
    they use and of report assembly, with the properties of the rules stated
    over it.

    The rules read a [Graph] and ask the querying layer (the authorization
    simulator, the privilege-escalation search, the ARN helpers).  The
    querying layer lives in other modules of the package; here it is the
    interface [Querying], and every statement holds for any implementation
    of it. *)

From stdpp Require Import base option list gmap strings.
From Stdlib Require Import ZArith Lia.

Local Open Scope Z_scope.
Local Open Scope string_scope.
Local Open Scope list_scope.
Local Open Scope stdpp_scope.

(** ** Strings *)

(** The line feed, written ['\n'] in the source. *)
Definition nl : string := String (Ascii.Ascii false true false true false false false false) "".

(** The double quote character. *)
Definition dquote : string := String (Ascii.Ascii false true false false false true false false) "".

(** [needle in hay] on Python strings. *)
Fixpoint str_in (needle hay : string) : bool :=
  String.prefix needle hay ||
  match hay with
  | EmptyString => false
  | String _ rest => str_in needle rest
  end.

(** [hay.startswith(p)]. *)
Definition startswith (hay p : string) : bool := String.prefix p hay.

(** [sep.join(l)]. *)
Definition join (sep : string) (l : list string) : string := String.concat sep l.

(** [s] occurs in [t]: the relation behind "the description names ...". *)
Definition occurs_in (s t : string) : Prop := ∃ pre post : string, t = pre +:+ s +:+ post.

(** ** Data model *)

(** Modelled from the spec: the Policy Document (section 3), whose class is
    declared in [principalmapper.common]; the rules only hand it to the
    querying layer. *)
Inductive Effect := Allow | Deny.

Record Condition := {
  cond_operator : string;
  cond_key : string;
  cond_values : list string
}.

Record Statement := {
  effect : Effect;
  actions : list string;
  resources : list string;
  principal : option (list string);
  conditions : list Condition
}.

Definition PolicyDoc := list Statement.

#[global] Instance Effect_eq_dec : EqDecision Effect.
Proof. solve_decision. Defined.
#[global] Instance Condition_eq_dec : EqDecision Condition.
Proof. solve_decision. Defined.
#[global] Instance Statement_eq_dec : EqDecision Statement.
Proof. solve_decision. Defined.

(** A principal.  The fields are the attributes the rules read. *)
Record Node := {
  arn : string;
  is_admin : bool;
  has_mfa : bool;
  access_keys : Z;
  instance_profile : option (list string);
  trust_policy : option PolicyDoc
}.

(** [==] and [in] on nodes compare objects; a graph holds one object per
    principal, so two nodes of a graph are equal when they are the same
    record. *)
#[global] Instance Node_eq_dec : EqDecision Node.
Proof. solve_decision. Defined.

Record Edge := {
  source : Node;
  destination : Node;
  reason : string;
  short_reason : string
}.

Record Policy := {
  policy_arn : string;
  policy_name : string;
  policy_doc : PolicyDoc
}.

Record Graph := {
  nodes : list Node;
  edges : list Edge;
  policies : list Policy;
  metadata : gmap string string
}.

(** The finding dictionary of the module docstring. *)
Record Finding := {
  title : string;
  severity : string;
  impact : string;
  description : string;
  recommendation : string
}.

Record Report := {
  account : string;
  date_and_time : Z;
  findings : list Finding;
  report_source : string
}.

(** Modelled from the spec: the result of resource-policy evaluation
    (section 4.1), the enumeration [ResourcePolicyEvalResult] of
    [principalmapper.querying.local_policy_simulation]. *)
Inductive ResourcePolicyEvalResult :=
  | SERVICE_MATCH
  | ACCOUNT_MATCH
  | EXPLICIT_DENY
  | NEUTRAL.

#[global] Instance ResourcePolicyEvalResult_eq_dec : EqDecision ResourcePolicyEvalResult.
Proof. solve_decision. Defined.

(** [r.SERVICE_MATCH]: the attribute is looked up on the class of [r], so
    it is the member [SERVICE_MATCH] whatever [r] is. *)
Definition attr_SERVICE_MATCH (r : ResourcePolicyEvalResult) : ResourcePolicyEvalResult :=
  SERVICE_MATCH.

(** Truth value of a member of a plain enumeration: every member is true. *)
Definition enum_truthy (r : ResourcePolicyEvalResult) : bool := true.

(** ** The querying layer *)

Class Querying := {
  (** [principalmapper.querying.presets.privesc.can_privesc] *)
  can_privesc : Graph → Node → bool * list Edge;
  (** [query_interface.local_check_authorization] *)
  local_check_authorization : Node → string → string → gmap string string → bool;
  (** [query_interface.local_check_authorization_handling_mfa] *)
  local_check_authorization_handling_mfa :
    Node → string → string → gmap string string → bool * bool;
  (** [resource_policy_authorization] *)
  resource_policy_authorization :
    string → string → option PolicyDoc → string → string → gmap string string →
    ResourcePolicyEvalResult;
  (** [Node.get_outbound_edges] *)
  get_outbound_edges : Node → Graph → list Edge;
  (** [Node.searchable_name] *)
  searchable_name : Node → string;
  (** [Edge.describe_edge] *)
  describe_edge : Edge → string;
  (** [arns.get_service] *)
  get_service : string → string;
  (** [arns.get_account_id] *)
  get_account_id : string → string
}.

(** ** Effects: exceptions, divergence and the calls a run makes *)

Inductive Exn :=
  | KeyError (key : string)
  | IndexError
  | TypeError.

(** What a run did that can be observed from outside: which rule it entered
    and which searches and queries it started. *)
Inductive Event :=
  | Invoke (rule : string)
  | Call_can_privesc (n : Node)
  | Call_find_cycle (origin : Node)
  | Call_local_check_authorization (n : Node) (action : string)
  | Call_local_check_authorization_handling_mfa (n : Node) (action : string)
  | Call_resource_policy_authorization (service resource action : string).

#[global] Instance Event_eq_dec : EqDecision Event.
Proof. solve_decision. Defined.

Inductive outcome (A : Type) :=
  | Ok (a : A)
  | Raise (e : Exn)
  | Timeout.
Arguments Ok {A} a.
Arguments Raise {A} e.
Arguments Timeout {A}.

(** A computation: the events in the order they happened, and how it ended.
    [Timeout] is a loop that was still running when its fuel ran out. *)
Definition M (A : Type) : Type := list Event * outcome A.

Definition ret {A} (a : A) : M A := ([], Ok a).

Definition bind {A B} (m : M A) (k : A → M B) : M B :=
  match m with
  | (t, Ok a) => let '(t', r) := k a in (t ++ t', r)
  | (t, Raise e) => (t, Raise e)
  | (t, Timeout) => (t, Timeout)
  end.

Definition emit (e : Event) : M unit := ([e], Ok tt).
Definition raise {A} (e : Exn) : M A := ([], Raise e).
Definition trace {A} (m : M A) : list Event := m.1.
Definition result {A} (m : M A) : outcome A := m.2.

Declare Scope m_scope.
Delimit Scope m_scope with M.
Notation "x <- m ;; k" := (bind m (λ x, k))
  (at level 100, m at next level, right associativity) : m_scope.
Notation "m ;; k" := (bind m (λ _, k))
  (at level 100, right associativity) : m_scope.
Local Open Scope m_scope.

(** [for x in l: s = body(s, x)] *)
Fixpoint for_each {A S : Type} (l : list A) (body : S → A → M S) (s : S) : M S :=
  match l with
  | [] => ret s
  | x :: l' => s' <- body s x ;; for_each l' body s'
  end.

(** [l.pop()]: the last element and the list without it. *)
Fixpoint pop {A : Type} (l : list A) : option (A * list A) :=
  match l with
  | [] => None
  | [x] => Some (x, [])
  | x :: l' => match pop l' with
               | Some (y, r) => Some (y, x :: r)
               | None => None
               end
  end.

(** ** Texts of the findings *)

Definition privesc_description_preamble : string :=
  "In AWS, IAM Principals such as IAM Users or IAM Roles have their permissions " +:+
  "defined using IAM Policies. These policies describe different actions, " +:+
  "resources, and conditions where the principal can make a given API call to a " +:+
  "service." +:+ nl +:+ nl +:+
  "Administrative principals can call any action with any resource, as in the " +:+
  "AdministratorAccess AWS-managed policy. However, some permissions may allow " +:+
  "another non-administrative principal to gain access to an administrative " +:+
  "principal. This represents a privilege escalation risk." +:+ nl +:+ nl +:+
  "The following principals could escalate privileges:" +:+ nl +:+ nl.

Definition privesc_impact : string :=
  "A lower-privilege IAM User or Role is able to gain administrative privileges. " +:+
  "This could lead to the lower-privilege principal being used to compromise the " +:+
  "account and its resources.".

Definition privesc_recommendation : string :=
  "Review the IAM Policies that are applicable to the affected IAM User(s) or " +:+
  "Role(s). Either reduce the permissions of the administrative principal(s), or " +:+
  "reduce the permissions of the principal(s) that can access the administrative " +:+
  "principals.".

Definition mfa_actions_description_preamble : string :=
  "In AWS, IAM Users can be configured to use an MFA device. When an IAM User has " +:+
  "MFA enabled, they are required to provide the second factor of authentication " +:+
  "when they log in to the AWS Console. However, unless there is a specific IAM " +:+
  "policy attached to the user, they will not need to provide a second factor of " +:+
  "authentication when making API calls." +:+ nl +:+ nl +:+
  "The following administrative IAM Users have at least one set of access keys, " +:+
  "and can call sensitive actions to alter permissions or add users without using " +:+
  "a second factor of authentication:" +:+ nl +:+ nl.

Definition mfa_actions_impact : string :=
  "An adminstrative IAM User is able to call sensitive actions, such as creating " +:+
  "more principals or modifying permissions, without using MFA.".

Definition mfa_actions_recommendation : string :=
  "Implement and attach an IAM Policy to the noted user(s) that rejects requests " +:+
  "when MFA is not used.".

Definition instance_profile_description_preamble : string :=
  "In AWS, EC2 instances can be given an instance profile. These instance profiles " +:+
  "are associated with an IAM Role, and grants access to the permissions of the " +:+
  "IAM Role. Because EC2 instances are at a higher risk of exposure and " +:+
  "compromise, both to external attackers and authorized users in the AWS account, " +:+
  "they should not have access to administrative privileges. The following IAM " +:+
  "Roles have administrative permissions and are associated with an instance " +:+
  "profile:" +:+ nl +:+ nl.

Definition instance_profile_impact : string :=
  "If an instance with the noted instance profile(s) is compromised, then the AWS " +:+
  "account as a whole is at risk of compromise.".

Definition instance_profile_recommendation : string :=
  "Reduce the scope of permissions attached to the noted instance profile(s).".

Definition function_description_preamble : string :=
  "In AWS, Lambda functions can be assigned an IAM Role to use during execution. " +:+
  "These IAM Roles give the function access to call the AWS API with the " +:+
  "permissions of the IAM Role, depending on the policies attached to it. If the " +:+
  "Lambda function can be compromised, and the attacker can alter the code it " +:+
  "executes, the attacker could make AWS API calls with the IAM Role's " +:+
  "permissions. The following IAM Roles have administrative privileges, and can be " +:+
  "passed to Lambda functions:" +:+ nl +:+ nl.

Definition function_impact : string :=
  "If an attacker can inject code or commands into the function, or if a " +:+
  "lower-privileged principal can alter the function, the AWS account as a whole " +:+
  "could be compromised.".

Definition function_recommendation : string :=
  "Reduce the scope of permissions attached to the noted IAM Role(s).".

Definition stack_description_preamble : string :=
  "In AWS, CloudFormation stacks can be given an IAM Role. When a stack has an IAM " +:+
  "Role, it can use that IAM Role to make AWS API calls to create the resources " +:+
  "defined in the template for that stack. If the IAM Role has administrator " +:+
  "access to the account, and an attacker is able to make the right CloudFormation " +:+
  "API calls, they would be able to use the IAM Role to escalate privileges and " +:+
  "compromise the account as a whole. The following IAM Roles can be used in " +:+
  "CloudFormation and have administrative privileges:" +:+ nl +:+ nl.

Definition stack_impact : string :=
  "If an attacker has the right permissions in the AWS Account, they can grant " +:+
  "themselves adminstrative access to the account to compromise the account.".

Definition stack_recommendation : string :=
  "Reduce the scope of permissions attached to the noted IAM Role(s).".

Definition os_lpe_description_preamble : string :=
  "In AWS EC2, instances can be assigned instance profiles. An instance profile is " +:+
  "tied to a single IAM Role. The instance profile can be used to access the AWS " +:+
  "API with the permissions of the IAM Role. If the IAM Role has permission to " +:+
  "call certain SSM actions such as `ssm:SendCommand` or `ssm:StartSession`, the " +:+
  "instance profile can be used to invoke commands on other instances or itself." +:+ nl +:+
  nl +:+ "Because the SSM Agent runs with the highest permissions on their hosts (root or " +:+
  "SYSTEM), this can be a way for attackers to pivot and compromise other " +:+
  "instances, or escalate privileges on the local machine. The following IAM Roles " +:+
  "are attached to at least one instance profile and have permissions with the " +:+
  "aforementioned risk:" +:+ nl +:+ nl.

Definition os_lpe_impact : string :=
  "If an attacker gains access to an instance with the unsafe permissions, they " +:+
  "could escalate privileges on its current host or compromise other hosts.".

Definition os_lpe_recommendation : string :=
  "Reduce the scope of permissions attached to the noted IAM Role(s).".

Definition circular_description_preamble : string :=
  "In AWS, an IAM Principal with a specific set of permissions can gain access to " +:+
  "another principal, such as when an IAM User has permission to call " +:+
  "`sts:AssumeRole` for an IAM Role. Principal Mapper tracks these connections as " +:+
  "Nodes (a.k.a. Vertices) and Edges in a Graph." +:+ nl +:+ nl +:+
  "However, there may be instances where nodes can access each other in a circular " +:+
  "manner. This presents a risk in the account if an attacker gains access to one " +:+
  "of the principals in a cycle. An attacker can abuse that access to pivot " +:+
  "between each of the principals in a cycle. This can be used to evade detection " +:+
  "or persist access to an AWS account. The following cycles were identified:" +:+ nl +:+ nl.

Definition circular_impact : string :=
  "If an attacker gains access to one of the identified principals, they can " +:+
  "potentially evade detections or persist access.".

Definition circular_recommendation : string :=
  "Break the cycle of access by altering/removing permissions assigned to one of " +:+
  "the noted principals.".

Definition admin_no_mfa_description_preamble : string :=
  "In AWS, an IAM User can be assigned a device for Multi-Factor Authentication " +:+
  "(MFA). When an IAM User is assigned an MFA device, they are required to provide " +:+
  "an extra factor of authentication when logging in to the AWS Console. It is " +:+
  "also possible to create IAM Policies that impose extra restrictions on the " +:+
  "permissions of IAM Users depending on whether or not they have authenticated " +:+
  "with MFA when using the AWS API. Any IAM User with administrative privileges " +:+
  "should be configured to have an MFA device. " +:+ nl +:+ nl +:+
  "The following IAM Users with administrative privileges do not have an MFA " +:+
  "device configured:" +:+ nl +:+ nl.

Definition admin_no_mfa_impact : string :=
  "If an attacker gains access to any of the noted sensitive IAM Users, there is " +:+
  "no secondary layer of protection in place to prevent the AWS from being " +:+
  "compromised.".

Definition admin_no_mfa_recommendation : string :=
  "Assign an MFA device to each of the noted IAM Users.".

Definition confused_deputy_impact : string :=
  "Depending on the affected resources and services, an attacker may be able to " +:+
  "execute read or write operations on the resources from another AWS account.".

Definition confused_deputy_description_preamble : string :=
  "In AWS, certain services will create and use resources in the customer's own " +:+
  "AWS account. This may be controlled using a resource policy that grants access " +:+
  "to the service that created the resource in the customer's AWS account. " +:+
  "However, some services require customers to use the `${aws:SourceAccount}` " +:+
  "condition context key to control access to the account resource from the " +:+
  "service. In other words, to prevent the service from accessing the resource on " +:+
  "the behalf of another customer, the resource needs a resource policy that " +:+
  "allow-lists the true " +:+ dquote +:+ "source" +:+ dquote +:+ " of a request." +:+ nl +:+
  nl +:+ "The following AWS services and resources could allow an external account to " +:+
  "potentially gain read/write access to the resources:" +:+ nl +:+ nl.

Definition confused_deputy_recommendation : string :=
  "Update the resource policy for all affected resources, and ensure that all " +:+
  "statements granting access to AWS services check against the " +:+
  "`${aws:SourceAccount}` condition context key when appropriate.".

Section Rules.

Context `{Q : Querying}.

(** ** The cycle search *)

(** The loop of [_find_cycle].  [Ok r] is [return r]; [Timeout] is a loop
    that needs more than [fuel] iterations; [pop] on an empty list raises
    [IndexError]. *)
Fixpoint find_cycle_loop (fuel : nat) (graph : Graph) (origin : Node)
    (current_root : Node) (current_stack explored_nodes : list Node)
    : outcome (option (list Node)) :=
  match fuel with
  | O => Timeout
  | S fuel' =>
    if bool_decide (0 < length current_stack)%nat then
      let outbound_nodes := destination <$> get_outbound_edges current_root graph in
      if bool_decide (length outbound_nodes = 0%nat) then
        match pop current_stack with
        | Some (top, rest) => find_cycle_loop fuel' graph origin top rest explored_nodes
        | None => Raise IndexError
        end
      else if bool_decide (origin ∈ outbound_nodes) then
        Ok (Some current_stack)
      else
        let candidates := filter (λ x, x ∉ explored_nodes) outbound_nodes in
        match candidates with
        | [] =>
          match pop current_stack with
          | Some (top, rest) => find_cycle_loop fuel' graph origin top rest explored_nodes
          | None => Raise IndexError
          end
        | c :: _ =>
          find_cycle_loop fuel' graph origin c (current_stack ++ [c])
                          (explored_nodes ++ [current_root])
        end
    else Ok None
  end.

Definition _find_cycle (fuel : nat) (graph : Graph) (origin : Node)
    : outcome (option (list Node)) :=
  find_cycle_loop fuel graph origin origin [origin] [].

(** ** Queries, with the call recorded *)

Definition call_can_privesc (graph : Graph) (node : Node) : M (bool * list Edge) :=
  emit (Call_can_privesc node) ;;
  ret (can_privesc graph node).

Definition call_local_check_authorization (node : Node) (action resource : string)
    (context : gmap string string) : M bool :=
  emit (Call_local_check_authorization node action) ;;
  ret (local_check_authorization node action resource context).

Definition call_local_check_authorization_handling_mfa (node : Node)
    (action resource : string) (context : gmap string string) : M (bool * bool) :=
  emit (Call_local_check_authorization_handling_mfa node action) ;;
  ret (local_check_authorization_handling_mfa node action resource context).

Definition call_resource_policy_authorization (service account_id : string)
    (doc : option PolicyDoc) (action resource : string) (context : gmap string string)
    : M ResourcePolicyEvalResult :=
  emit (Call_resource_policy_authorization service resource action) ;;
  ret (resource_policy_authorization service account_id doc action resource context).

Definition call_find_cycle (fuel : nat) (graph : Graph) (origin : Node)
    : M (option (list Node)) :=
  emit (Call_find_cycle origin) ;;
  ([], _find_cycle fuel graph origin).

(** [graph.metadata[key]] *)
Definition metadata_get (graph : Graph) (key : string) : M string :=
  match metadata graph !! key with
  | Some v => ret v
  | None => raise (KeyError key)
  end.

(** [for node in l: description_body += '* {}\n'.format(node.searchable_name())],
    the loop that renders the affected principals in five of the rules. *)
Definition bullet_lines (l : list Node) : string :=
  fold_left (λ description_body node,
               description_body +:+ "* " +:+ searchable_name node +:+ nl) l "".

(** ** The rules *)

(** The scan of [gen_privesc_findings]: the principals that can escalate,
    each with its path. *)
Definition privesc_node_path_list (graph : Graph) : M (list (Node * list Edge)) :=
  for_each (nodes graph) (λ node_path_list node,
    if is_admin node then ret node_path_list
    else
      r <- call_can_privesc graph node ;;
      let '(privesc_res, edge_list) := r in
      if privesc_res then ret (node_path_list ++ [(node, edge_list)])
      else ret node_path_list) [].

Definition gen_privesc_findings (graph : Graph) : M (list Finding) :=
  emit (Invoke "gen_privesc_findings") ;;
  node_path_list <- privesc_node_path_list graph ;;
  if bool_decide (0 < length node_path_list)%nat then
    description_body <-
      for_each node_path_list (λ description_body item,
        let '(node, edge_list) := item in
        match last edge_list with
        | None => raise IndexError
        | Some e =>
          let end_of_list := destination e in
          let description_body :=
            description_body +:+ "* " +:+ searchable_name node +:+
            " can escalate privileges by accessing the administrative principal " +:+
            searchable_name end_of_list +:+ ":" +:+ nl in
          let description_body :=
            fold_left (λ body edge, body +:+ "   * " +:+ describe_edge edge +:+ nl)
                      edge_list description_body in
          ret (description_body +:+ nl)
        end) "" ;;
    ret [ {| title := "IAM " +:+
                      (if bool_decide (1 < length node_path_list)%nat
                       then "Principals" else "Principal") +:+
                      " Can Escalate Privileges";
             severity := "High";
             impact := privesc_impact;
             description := privesc_description_preamble +:+ description_body;
             recommendation := privesc_recommendation |} ]
  else ret [].

Fixpoint _can_call_without_mfa (node : Node) (actions : list string) : M bool :=
  match actions with
  | [] => ret false
  | action :: rest =>
    r <- call_local_check_authorization_handling_mfa node action "*" ∅ ;;
    let '(auth, needmfa) := r in
    if auth && negb needmfa then ret true
    else _can_call_without_mfa node rest
  end.

Definition mfa_sensitive_actions : list string :=
  ["iam:CreateUser"; "iam:CreateRole"; "iam:CreateGroup"; "iam:PutUserPolicy";
   "iam:PutRolePolicy"; "iam:PutGroupPolicy"; "iam:AttachUserPolicy";
   "iam:AttachRolePolicy"; "iam:AttachGroupPolicy"; "sts:AssumeRole"].

(** The scan of [gen_mfa_actions_findings]: the users it reports. *)
Definition mfa_affected_users (graph : Graph) : M (list Node) :=
  for_each (nodes graph) (λ affected_users node,
    if str_in ":user/" (arn node) && is_admin node && bool_decide (0 < access_keys node)
    then
      let actions := mfa_sensitive_actions in
      b <- _can_call_without_mfa node actions ;;
      if b then ret (affected_users ++ [node]) else ret affected_users
    else ret affected_users) [].

Definition gen_mfa_actions_findings (graph : Graph) : M (list Finding) :=
  emit (Invoke "gen_mfa_actions_findings") ;;
  affected_users <- mfa_affected_users graph ;;
  if bool_decide (0 < length affected_users)%nat then
    let description_body := bullet_lines affected_users in
    ret [ {| title := "Administrative IAM " +:+
                      (if bool_decide (1 < length affected_users)%nat
                       then "Users" else "User") +:+
                      " Can Call Sensitive Actions Without MFA";
             severity := "Medium";
             impact := mfa_actions_impact;
             description := mfa_actions_description_preamble +:+ description_body;
             recommendation := mfa_actions_recommendation |} ]
  else ret [].

Definition gen_overprivileged_instance_profile_findings (graph : Graph)
    : M (list Finding) :=
  emit (Invoke "gen_overprivileged_instance_profile_findings") ;;
  affected_roles <-
    for_each (nodes graph) (λ affected_roles node,
      if str_in ":role/" (arn node) && is_admin node then
        match instance_profile node with
        | None => raise TypeError
        | Some profiles =>
          if bool_decide (0 < length profiles)%nat then ret (affected_roles ++ [node])
          else ret affected_roles
        end
      else ret affected_roles) [] ;;
  if bool_decide (0 < length affected_roles)%nat then
    let description_body := bullet_lines affected_roles in
    ret [ {| title := "Instance " +:+
                      (if bool_decide (1 < length affected_roles)%nat
                       then "Profiles Have" else "Profile Has") +:+
                      " Administrator Privileges";
             severity := "High";
             impact := instance_profile_impact;
             description := instance_profile_description_preamble +:+ description_body;
             recommendation := instance_profile_recommendation |} ]
  else ret [].

Definition gen_overprivileged_function_findings (graph : Graph) : M (list Finding) :=
  emit (Invoke "gen_overprivileged_function_findings") ;;
  affected_roles <-
    for_each (nodes graph) (λ affected_roles node,
      if str_in ":role/" (arn node) && is_admin node then
        r <- call_resource_policy_authorization
               "lambda.amazonaws.com" (get_account_id (arn node)) (trust_policy node)
               "sts:AssumeRole" (arn node) ∅ ;;
        if bool_decide (r = SERVICE_MATCH) then ret (affected_roles ++ [node])
        else ret affected_roles
      else ret affected_roles) [] ;;
  if bool_decide (0 < length affected_roles)%nat then
    let description_body := bullet_lines affected_roles in
    ret [ {| title := if bool_decide (1 < length affected_roles)%nat
                      then "IAM Roles Available to Lambda Functions Have Administrative Privileges"
                      else "IAM Role Available to Lambda Functions Has Administrative Privileges";
             severity := "Medium";
             impact := function_impact;
             description := function_description_preamble +:+ description_body;
             recommendation := function_recommendation |} ]
  else ret [].

Definition gen_overprivileged_stack_findings (graph : Graph) : M (list Finding) :=
  emit (Invoke "gen_overprivileged_stack_findings") ;;
  affected_roles <-
    for_each (nodes graph) (λ affected_roles node,
      if str_in ":role/" (arn node) && is_admin node then
        r <- call_resource_policy_authorization
               "cloudformation.amazonaws.com" (get_account_id (arn node))
               (trust_policy node) "sts:AssumeRole" (arn node) ∅ ;;
        if bool_decide (r = SERVICE_MATCH) then ret (affected_roles ++ [node])
        else ret affected_roles
      else ret affected_roles) [] ;;
  if bool_decide (0 < length affected_roles)%nat then
    let description_body := bullet_lines affected_roles in
    ret [ {| title := if bool_decide (1 < length affected_roles)%nat
                      then "IAM Roles Available to CloudFormation Stacks Have Administrative Privileges"
                      else "IAM Role Available to CloudFormation Stacks Has Administrative Privileges";
             severity := "Low";
             impact := stack_impact;
             description := stack_description_preamble +:+ description_body;
             recommendation := stack_recommendation |} ]
  else ret [].

(** The scan of [gen_os_lpe_finding]: the roles it reports. *)
Definition os_lpe_affected_roles (graph : Graph) : M (list Node) :=
  for_each (nodes graph) (λ affected_roles node,
    if str_in ":role/" (arn node) then
      match instance_profile node with
      | None => ret affected_roles
      | Some profiles =>
        if bool_decide (0 < length profiles)%nat then
          b <- call_local_check_authorization node "ssmmessages:*" "*" ∅ ;;
          if b then
            b <- call_local_check_authorization node "ssm:SendCommand" "*" ∅ ;;
            if b then ret (affected_roles ++ [node])
            else
              b <- call_local_check_authorization node "ssm:StartSession" "*" ∅ ;;
              if b then ret (affected_roles ++ [node]) else ret affected_roles
          else ret affected_roles
        else ret affected_roles
      end
    else ret affected_roles) [].

Definition gen_os_lpe_finding (graph : Graph) : M (list Finding) :=
  emit (Invoke "gen_os_lpe_finding") ;;
  affected_roles <- os_lpe_affected_roles graph ;;
  if bool_decide (0 < length affected_roles)%nat then
    let description_body := bullet_lines affected_roles in
    ret [ {| title := if bool_decide (1 < length affected_roles)%nat
                      then "IAM Roles With Unsafe SSM Permissions"
                      else "IAM Role With Unsafe SSM Permissions";
             severity := "Medium";
             impact := os_lpe_impact;
             description := os_lpe_description_preamble +:+ description_body;
             recommendation := os_lpe_recommendation |} ]
  else ret [].

(** The scan of [gen_circular_access_finding]: the cycles it reports. *)
Definition circular_cycles (fuel : nat) (graph : Graph) : M (list (list Node)) :=
  for_each (nodes graph) (λ cycles node,
    if is_admin node then ret cycles
    else
      cycle_result <- call_find_cycle fuel graph node ;;
      match cycle_result with
      | Some cycle => ret (cycles ++ [cycle])
      | None => ret cycles
      end) [].

Definition gen_circular_access_finding (fuel : nat) (graph : Graph) : M (list Finding) :=
  emit (Invoke "gen_circular_access_finding") ;;
  cycles <- circular_cycles fuel graph ;;
  if bool_decide (0 < length cycles)%nat then
    description_body <-
      for_each cycles (λ description_body cycle,
        match cycle with
        | [] => raise IndexError
        | first :: _ =>
          ret (description_body +:+ "* " +:+
               join " -> " ((searchable_name <$> cycle) ++ [searchable_name first]) +:+ nl)
        end) "" ;;
    ret [ {| title := "IAM Principals with Circular Access";
             severity := "Low";
             impact := circular_impact;
             description := circular_description_preamble +:+ description_body;
             recommendation := circular_recommendation |} ]
  else ret [].

Definition gen_admin_users_without_mfa_finding (graph : Graph) : M (list Finding) :=
  emit (Invoke "gen_admin_users_without_mfa_finding") ;;
  affected_nodes <-
    for_each (nodes graph) (λ affected_nodes node,
      if startswith (searchable_name node) "user/" && is_admin node && negb (has_mfa node)
      then ret (affected_nodes ++ [node])
      else ret affected_nodes) [] ;;
  if bool_decide (0 < length affected_nodes)%nat then
    let user_list := (λ node, "* " +:+ searchable_name node) <$> affected_nodes in
    let description_body := join nl user_list in
    ret [ {| title := "IAM Users With Administrative Permissions But No MFA Device";
             severity := "Medium";
             impact := admin_no_mfa_impact;
             description := admin_no_mfa_description_preamble +:+ description_body;
             recommendation := admin_no_mfa_recommendation |} ]
  else ret [].

(** The dictionary of the confused-deputy rule, in its insertion order. *)
Definition resource_service_action_map : list (string * list (string * list string)) :=
  [ ("s3", [ ("serverlessrepo.amazonaws.com", ["s3:GetObject"]) ]) ].

(** The scan of the confused-deputy rule: the triples (resource, service,
    actions) it reports. *)
Definition confused_deputy_affected_policies (graph : Graph)
    : M (list (string * string * string)) :=
  for_each resource_service_action_map (λ affected_policies entry,
    let '(resource_type, services) := entry in
    for_each (policies graph) (λ affected_policies policy,
      if bool_decide (get_service (policy_arn policy) = resource_type) then
        for_each services (λ affected_policies entry,
          let '(service, action_list) := entry in
          available_actions <-
            for_each action_list (λ available_actions action,
              account_id <- metadata_get graph "account_id" ;;
              rpa_result <- call_resource_policy_authorization
                              service account_id (Some (policy_doc policy)) action
                              (policy_arn policy)
                              {[ "aws:SourceAccount" := "000000000000" ]} ;;
              if enum_truthy (attr_SERVICE_MATCH rpa_result)
              then ret (available_actions ++ [action])
              else ret available_actions) [] ;;
          if bool_decide (0 < length available_actions)%nat then
            ret (affected_policies ++
                 [(policy_arn policy, service, join " | " available_actions)])
          else ret affected_policies) affected_policies
      else ret affected_policies) affected_policies) [].

Definition gen_resources_with_potential_confused_deputies (graph : Graph)
    : M (list Finding) :=
  emit (Invoke "gen_resources_with_potential_confused_deputies") ;;
  affected_policies <- confused_deputy_affected_policies graph ;;
  if bool_decide (0 < length affected_policies)%nat then
    let desc_list_str :=
      join nl ((λ p, let '(x, y, z) := p in
                     "* With service " +:+ y +:+ ", the resource " +:+ x +:+
                     " for the action(s): " +:+ z) <$> affected_policies) in
    ret [ {| title := "Resources With A Potential Confused-Deputy Risk";
             severity := "Medium";
             impact := confused_deputy_impact;
             description := confused_deputy_description_preamble +:+ desc_list_str;
             recommendation := confused_deputy_recommendation |} ]
  else ret [].

(** ** Aggregation and report assembly *)

Definition gen_all_findings (fuel : nat) (graph : Graph) : M (list Finding) :=
  let result := [] in
  r <- gen_privesc_findings graph ;;
  let result := result ++ r in
  r <- gen_admin_users_without_mfa_finding graph ;;
  let result := result ++ r in
  r <- gen_mfa_actions_findings graph ;;
  let result := result ++ r in
  r <- gen_overprivileged_function_findings graph ;;
  let result := result ++ r in
  r <- gen_overprivileged_instance_profile_findings graph ;;
  let result := result ++ r in
  r <- gen_overprivileged_stack_findings graph ;;
  let result := result ++ r in
  r <- gen_os_lpe_finding graph ;;
  let result := result ++ r in
  r <- gen_circular_access_finding fuel graph ;;
  let result := result ++ r in
  ret result.

(** [now] is the clock reading [dt.datetime.now(dt.timezone.utc)], [version]
    the package's [__version__]. *)
Definition gen_report (fuel : nat) (now : Z) (version : string) (graph : Graph) : M Report :=
  findings <- gen_all_findings fuel graph ;;
  account_id <- metadata_get graph "account_id" ;;
  ret {| account := account_id;
         date_and_time := now;
         findings := findings;
         report_source :=
           "Findings identified using Principal Mapper (" +:+ version +:+
           ") from NCC Group: https://github.com/nccgroup/PMapper" |}.


End Rules.

(** ** A querying layer to run the rules on concrete graphs *)

(** [s.split(sep)] *)
Fixpoint split_on (sep : Ascii.ascii) (s : string) : list string :=
  match s with
  | EmptyString => [""]
  | String c rest =>
    if bool_decide (c = sep) then "" :: split_on sep rest
    else match split_on sep rest with
         | [] => [String c ""]
         | w :: ws => String c w :: ws
         end
  end.

(** The colon character. *)
Definition colon : Ascii.ascii := Ascii.Ascii false true false true true true false false.

(** The [i]-th field of [arn:partition:service:region:account:resource]. *)
Definition arn_field (i : nat) (a : string) : string :=
  default "" (split_on colon a !! i).

(** The edges of the graph that leave [n]. *)
Definition edges_from (n : Node) (graph : Graph) : list Edge :=
  filter (λ e, source e = n) (edges graph).

(** A one-hop escalation search: the first edge from [n] to an
    administrative principal. *)
Definition one_hop_privesc (graph : Graph) (n : Node) : bool * list Edge :=
  match filter (λ e, is_admin (destination e) = true) (edges_from n graph) with
  | [] => (false, [])
  | e :: _ => (true, [e])
  end.

(** A querying layer given by tables: [grants] lists the (principal ARN,
    action) pairs that are authorized, none of them asking for MFA, and the
    resource-policy evaluation answers [rpa] for every policy. *)
Definition table_querying (grants : list (string * string))
    (rpa : ResourcePolicyEvalResult) : Querying := {|
  can_privesc := one_hop_privesc;
  local_check_authorization := λ n action _ _, bool_decide ((arn n, action) ∈ grants);
  local_check_authorization_handling_mfa :=
    λ n action _ _, (bool_decide ((arn n, action) ∈ grants), false);
  resource_policy_authorization := λ _ _ _ _ _ _, rpa;
  get_outbound_edges := edges_from;
  searchable_name := λ n, arn_field 5 (arn n);
  describe_edge := reason;
  get_service := arn_field 2;
  get_account_id := arn_field 4
|}.

Definition principal_node (a : string) (admin : bool) : Node :=
  {| arn := a; is_admin := admin; has_mfa := false; access_keys := 0;
     instance_profile := None; trust_policy := None |}.

Definition access_edge (a b : Node) : Edge :=
  {| source := a; destination := b; reason := "can call sts:AssumeRole to access";
     short_reason := "AssumeRole" |}.

(** Five non-administrative roles O, A, B, C, D with the edges
    O -> A, A -> B, A -> C, B -> D, C -> O. *)
Definition role_O := principal_node "arn:aws:iam::000000000000:role/O" false.
Definition role_A := principal_node "arn:aws:iam::000000000000:role/A" false.
Definition role_B := principal_node "arn:aws:iam::000000000000:role/B" false.
Definition role_C := principal_node "arn:aws:iam::000000000000:role/C" false.
Definition role_D := principal_node "arn:aws:iam::000000000000:role/D" false.

Definition detour_graph : Graph :=
  {| nodes := [role_O; role_A; role_B; role_C; role_D];
     edges := [access_edge role_O role_A; access_edge role_A role_B;
               access_edge role_A role_C; access_edge role_B role_D;
               access_edge role_C role_O];
     policies := [];
     metadata := {[ "account_id" := "000000000000" ]} |}.

(** Three roles, each with an edge to the two others. *)
Definition complete_graph : Graph :=
  {| nodes := [role_A; role_B; role_C];
     edges := [access_edge role_A role_B; access_edge role_A role_C;
               access_edge role_B role_A; access_edge role_B role_C;
               access_edge role_C role_A; access_edge role_C role_B];
     policies := [];
     metadata := {[ "account_id" := "000000000000" ]} |}.

(** An administrative user with one access key (scenario B of the spec). *)
Definition user_Bob : Node :=
  {| arn := "arn:aws:iam::000000000000:user/Bob"; is_admin := true; has_mfa := true;
     access_keys := 1; instance_profile := None; trust_policy := None |}.

Definition bob_graph : Graph :=
  {| nodes := [user_Bob]; edges := []; policies := [];
     metadata := {[ "account_id" := "000000000000" ]} |}.

(** A role of an instance profile that is not administrative. *)
Definition role_Web : Node :=
  {| arn := "arn:aws:iam::000000000000:role/Web"; is_admin := false; has_mfa := false;
     access_keys := 0; instance_profile := Some ["arn:aws:iam::000000000000:instance-profile/Web"];
     trust_policy := None |}.

Definition web_graph : Graph :=
  {| nodes := [role_Web]; edges := []; policies := [];
     metadata := {[ "account_id" := "000000000000" ]} |}.

(** A bucket policy that grants [s3:GetObject] to the serverless repository
    under a [aws:SourceAccount] condition on the own account. *)
Definition scoped_bucket_policy : Policy :=
  {| policy_arn := "arn:aws:s3:::artifacts";
     policy_name := "artifacts";
     policy_doc :=
       [ {| effect := Allow;
            actions := ["s3:GetObject"];
            resources := ["arn:aws:s3:::artifacts/*"];
            principal := Some ["serverlessrepo.amazonaws.com"];
            conditions := [ {| cond_operator := "StringEquals";
                               cond_key := "aws:SourceAccount";
                               cond_values := ["111111111111"] |} ] |} ] |}.

Definition bucket_graph : Graph :=
  {| nodes := []; edges := []; policies := [scoped_bucket_policy];
     metadata := {[ "account_id" := "111111111111" ]} |}.

(** The same graph without the account identifier. *)
Definition anonymous_graph : Graph :=
  {| nodes := [role_A]; edges := []; policies := []; metadata := ∅ |}.

(** Two roles behind O, the first of which can also reach itself:
    O -> A, A -> A, A -> C, C -> O. *)
Definition self_loop_graph : Graph :=
  {| nodes := [role_O; role_A; role_C];
     edges := [access_edge role_O role_A; access_edge role_A role_A;
               access_edge role_A role_C; access_edge role_C role_O];
     policies := [];
     metadata := {[ "account_id" := "000000000000" ]} |}.

(** The simulator of the examples: nothing is authorized and no resource
    policy matches. *)
Definition quiet_querying : Querying := table_querying [] NEUTRAL.

(** Every resource policy matches the service that asks. *)
Definition matching_querying : Querying := table_querying [] SERVICE_MATCH.

(** Bob may call [iam:CreateUser]. *)
Definition bob_querying : Querying :=
  table_querying [("arn:aws:iam::000000000000:user/Bob", "iam:CreateUser")] NEUTRAL.

(** The role Web may open SSM sessions. *)
Definition web_querying : Querying :=
  table_querying [("arn:aws:iam::000000000000:role/Web", "ssmmessages:*");
                  ("arn:aws:iam::000000000000:role/Web", "ssm:StartSession")] NEUTRAL.

(** The findings of the complete graph on three roles. *)
Definition complete_graph_findings : list Finding :=
  Eval vm_compute in
    match result (@gen_all_findings quiet_querying 20 complete_graph) with
    | Ok r => r
    | _ => []
    end.

(** ** Notions used in the statements *)

(** *** The measure of the cycle search *)

(** The nodes of [univ] the search has not marked explored. *)
Definition unexplored (univ explored : list Node) : nat :=
  length (filter (λ n, n ∉ explored) univ).

(** The second component of the measure: three per stack element, plus a
    weight that tells apart a root already explored (4), a fresh root that
    is no longer on top of the stack (2), and a fresh root on top (0). *)
Definition weight (root : Node) (stack explored : list Node) : nat :=
  3 * length stack +
  (if decide (root ∈ explored) then 4
   else if decide (last stack = Some root) then 0 else 2).

(** *** The events of a run *)

(** The rules that [gen_all_findings] runs. *)
Definition rule_names : list string :=
  [ "gen_privesc_findings"; "gen_admin_users_without_mfa_finding";
    "gen_mfa_actions_findings"; "gen_overprivileged_function_findings";
    "gen_overprivileged_instance_profile_findings";
    "gen_overprivileged_stack_findings"; "gen_os_lpe_finding";
    "gen_circular_access_finding" ].

(** What a run of [gen_all_findings] may do: enter one of its rules, start
    a search from a principal that is not administrative, or ask the
    simulator. *)
Definition expected_event (e : Event) : Prop :=
  match e with
  | Invoke rule => rule ∈ rule_names
  | Call_can_privesc n | Call_find_cycle n => is_admin n = false
  | _ => True
  end.

(** *** The confused-deputy rule *)

(** What the rule reports for a policy. *)
Definition confused_deputy_entry (policy : Policy) : string * string * string :=
  (policy_arn policy, "serverlessrepo.amazonaws.com", "s3:GetObject").


(** ** More graphs to run the rules on *)

(** Alice can assume the administrative role Admin (scenario A of the
    spec). *)
Definition user_Alice : Node :=
  principal_node "arn:aws:iam::000000000000:user/Alice" false.
Definition role_Admin : Node :=
  principal_node "arn:aws:iam::000000000000:role/Admin" true.

Definition alice_graph : Graph :=
  {| nodes := [user_Alice; role_Admin];
     edges := [access_edge user_Alice role_Admin];
     policies := [];
     metadata := {[ "account_id" := "000000000000" ]} |}.

(** An escalation search that answers true without a path. *)
Definition pathless_querying : Querying := {|
  can_privesc := λ _ _, (true, []);
  local_check_authorization := @local_check_authorization quiet_querying;
  local_check_authorization_handling_mfa :=
    @local_check_authorization_handling_mfa quiet_querying;
  resource_policy_authorization := @resource_policy_authorization quiet_querying;
  get_outbound_edges := @get_outbound_edges quiet_querying;
  searchable_name := @searchable_name quiet_querying;
  describe_edge := @describe_edge quiet_querying;
  get_service := @get_service quiet_querying;
  get_account_id := @get_account_id quiet_querying
|}.

(** The bucket policy in a graph without account identifier. *)
Definition anonymous_bucket_graph : Graph :=
  {| nodes := []; edges := []; policies := [scoped_bucket_policy]; metadata := ∅ |}.

(** A clock rendering for the examples. *)
Definition sample_isoformat (t : Z) : string := "2021-01-01T00:00:00+00:00".

(** The report of the complete graph on three roles. *)
Definition complete_graph_report : Report :=
  {| account := "000000000000"; date_and_time := 0;
     findings := complete_graph_findings;
     report_source := "Findings identified using Principal Mapper (1.1.5) from NCC Group: https://github.com/nccgroup/PMapper" |}.

(** The finding of the complete graph. *)
Definition complete_graph_finding : Finding :=
  default {| title := ""; severity := ""; impact := ""; description := "";
             recommendation := "" |} (head complete_graph_findings).

(** ** Printing *)

(** The banner that opens and closes the printed report. *)
Definition report_banner : string :=
  "----------------------------------------------------------------".

(** The block [print_report] prints for a finding. *)
Definition finding_block (finding : Finding) : string :=
  "## " +:+ title finding +:+ nl +:+ nl +:+
  "### Severity" +:+ nl +:+ nl +:+ severity finding +:+ nl +:+ nl +:+
  "### Impact" +:+ nl +:+ nl +:+ impact finding +:+ nl +:+ nl +:+
  "### Description" +:+ nl +:+ nl +:+ description finding +:+ nl +:+ nl +:+
  "### Recommendation" +:+ nl +:+ nl +:+ recommendation finding +:+ nl +:+ nl.

(** [print_report]: the arguments of its calls of [print], in order; [print()]
    is the empty string.  [isoformat] is [datetime.isoformat]. *)
Definition print_report (isoformat : Z → string) (report : Report) : list string :=
  [ report_banner;
    "# Principal Mapper Findings";
    "";
    "Findings identified in AWS account " +:+ account report;
    "";
    "Date and Time: " +:+ isoformat (date_and_time report);
    "";
    report_source report;
    "" ] ++
  (if bool_decide (length (findings report) = 0%nat) then
     [ "None found."; "" ]
   else
     finding_block <$> findings report) ++
  [ ""; report_banner ].

(** What the calls of [print] write: each argument, then a line feed. *)
Definition printed_text (prints : list string) : string :=
  fold_right (λ s out, s +:+ nl +:+ out) "" prints.

Section Printing.

Context `{Q : Querying}.

(** [gen_findings_and_print]: what it prints.  [json_dumps] is
    [json.dumps(report.as_dictionary(), indent=4)]. *)
Definition gen_findings_and_print (fuel : nat) (now : Z) (version : string)
    (isoformat : Z → string) (json_dumps : Report → string)
    (graph : Graph) (formatting : string) : M (list string) :=
  report <- gen_report fuel now version graph ;;
  if bool_decide (formatting = "text") then ret (print_report isoformat report)
  else ret [json_dumps report].

End Printing.

(** ** Invariants of the cycle search *)

Section CycleInvariants.

Context `{Q : Querying}.

(** The nodes [x] has an edge to. *)
Definition successors (graph : Graph) (x : Node) : list Node :=
  destination <$> get_outbound_edges x graph.

(** The stack starts at the origin, and no node on it leads back to the
    origin, the current root apart while it is on top of the stack. *)
Definition stack_inv (graph : Graph) (origin root : Node) (stack : list Node) : Prop :=
  (stack = [] ∨ ∃ rest, stack = origin :: rest) ∧
  ((∃ front, stack = front ++ [root] ∧ ∀ x, x ∈ front → origin ∉ successors graph x) ∨
   ((origin ∉ successors graph root) ∧ ∀ x, x ∈ stack → origin ∉ successors graph x)).

(** The stack has no repeated node, and its nodes are marked explored, the
    current root apart while it is on top of the stack. *)
Definition distinct_inv (root : Node) (stack explored : list Node) : Prop :=
  NoDup stack ∧
  ∀ x, x ∈ stack → x ∈ explored ∨ (x = root ∧ last stack = Some root).

End CycleInvariants.

(** ** What a rule keeps of the nodes *)

Section Selections.

Context `{Q : Querying}.

(** The test of [gen_admin_users_without_mfa_finding]. *)
Definition admin_user_without_mfa (node : Node) : bool :=
  startswith (searchable_name node) "user/" && is_admin node && negb (has_mfa node).

(** The test of the two rules on roles that a service can assume. *)
Definition admin_role_for_service (service : string) (node : Node) : bool :=
  str_in ":role/" (arn node) && is_admin node &&
  bool_decide (resource_policy_authorization service (get_account_id (arn node))
                 (trust_policy node) "sts:AssumeRole" (arn node) ∅ = SERVICE_MATCH).

(** An action the simulator lets [node] call without asking for MFA. *)
Definition callable_without_mfa (node : Node) (action : string) : bool :=
  let '(auth, needmfa) := local_check_authorization_handling_mfa node action "*" ∅ in
  auth && negb needmfa.


(** The confused-deputy rule evaluates only the policies of S3 resources of
    the graph, for the serverless repository and [s3:GetObject]. *)
Definition confused_deputy_query_ok (graph : Graph) (e : Event) : Prop :=
  match e with
  | Call_resource_policy_authorization service resource action =>
    service = "serverlessrepo.amazonaws.com" ∧ action = "s3:GetObject" ∧
    get_service resource = "s3" ∧
    ∃ policy, policy ∈ policies graph ∧ policy_arn policy = resource
  | _ => True
  end.

(** The line of the escalation finding for one principal and its path. *)
Definition privesc_lines (node : Node) (edge_list : list Edge) (end_of_list : Node) : string :=
  fold_left (λ body edge, body +:+ "   * " +:+ describe_edge edge +:+ nl) edge_list
    ("* " +:+ searchable_name node +:+
     " can escalate privileges by accessing the administrative principal " +:+
     searchable_name end_of_list +:+ ":" +:+ nl) +:+ nl.

(** The line of the circular-access finding for one cycle. *)
Definition cycle_line (cycle : list Node) (first : Node) : string :=
  "* " +:+ join " -> " ((searchable_name <$> cycle) ++ [searchable_name first]) +:+ nl.

End Selections.

(** The elements of [l] up to the first one that satisfies [p], that one
    included. *)
Fixpoint up_to_first {A : Type} (p : A → bool) (l : list A) : list A :=
  match l with
  | [] => []
  | x :: rest => if p x then [x] else x :: up_to_first p rest
  end.

(** The severities of the module docstring. *)
Definition severities : list string := ["Low"; "Medium"; "High"].

(** What a rule returns: at most one finding, with a severity of the
    docstring. *)
Definition rule_output_ok (r : list Finding) : Prop :=
  (length r ≤ 1)%nat ∧ ∀ f, f ∈ r → severity f ∈ severities.

(** * Properties *)

(** ** The computation monad *)

Lemma trace_bind_Forall {A B} (P : Event → Prop) (m : M A) (k : A → M B) :
  Forall P (trace m) → (∀ a, Forall P (trace (k a))) → Forall P (trace (bind m k)).
Proof.
  intros Hm Hk. destruct m as [t [a| |]]; simpl in *; try assumption.
  specialize (Hk a). destruct (k a) as [t' r]. simpl in *.
  apply Forall_app; auto.
Qed.

Lemma trace_for_each_Forall {A S} (P : Event → Prop) (l : list A) (body : S → A → M S) :
  (∀ s x, x ∈ l → Forall P (trace (body s x))) →
  ∀ s, Forall P (trace (for_each l body s)).
Proof.
  induction l as [|x l IH]; intros Hb s; simpl.
  - constructor.
  - apply trace_bind_Forall.
    + apply Hb. left.
    + intros s'. apply IH. intros s0 y Hy. apply Hb. by right.
Qed.

Lemma bind_Ok_inv {A B} (m : M A) (k : A → M B) t b :
  bind m k = (t, Ok b) →
  ∃ t1 a t2, m = (t1, Ok a) ∧ k a = (t2, Ok b) ∧ t = t1 ++ t2.
Proof.
  destruct m as [t1 [a| |]]; simpl; try discriminate.
  destruct (k a) as [t2 r] eqn:E. intros [= <- ->]. eauto 6.
Qed.

Lemma result_bind_Ok_inv {A B} (m : M A) (k : A → M B) b :
  result (bind m k) = Ok b → ∃ a, result m = Ok a ∧ result (k a) = Ok b.
Proof.
  destruct m as [t1 [a| |]]; simpl; try discriminate.
  destruct (k a) as [t2 r] eqn:E. simpl. intros ->. exists a. by rewrite E.
Qed.

Lemma result_bind_Ok {A B} (m : M A) (k : A → M B) a :
  result m = Ok a → result (bind m k) = result (k a).
Proof.
  destruct m as [t1 r]; simpl. intros ->. simpl. by destruct (k a).
Qed.

Lemma trace_bind_Ok {A B} (m : M A) (k : A → M B) a :
  result m = Ok a → trace (bind m k) = trace m ++ trace (k a).
Proof.
  destruct m as [t1 r]; simpl. intros ->. simpl. by destruct (k a).
Qed.

(** ** [pop] *)

Lemma pop_snoc {A} (l : list A) (x : A) : pop (l ++ [x]) = Some (x, l).
Proof.
  induction l as [|y l IH]; simpl; [done|].
  rewrite IH. by destruct (l ++ [x]) eqn:E; [destruct l; discriminate|].
Qed.

Lemma pop_Some {A} (l r : list A) (x : A) : pop l = Some (x, r) → l = r ++ [x].
Proof.
  destruct (decide (l = [])) as [->|Hne]; [discriminate|].
  destruct (exists_last Hne) as (r' & x' & ->).
  rewrite pop_snoc. by intros [= -> ->].
Qed.

Lemma pop_None {A} (l : list A) : pop l = None → l = [].
Proof.
  destruct (decide (l = [])) as [->|Hne]; [done|].
  destruct (exists_last Hne) as (r' & x' & ->).
  by rewrite pop_snoc.
Qed.

(** ** The cycle search *)

Section CycleSearch.

Context `{Q : Querying}.

Implicit Types (graph : Graph) (origin root : Node) (stack explored : list Node).

(** More fuel does not change a result. *)
Lemma find_cycle_loop_mono fuel :
  ∀ fuel' graph origin root stack explored r,
    find_cycle_loop fuel graph origin root stack explored = Ok r →
    (fuel ≤ fuel')%nat →
    find_cycle_loop fuel' graph origin root stack explored = Ok r.
Proof.
  induction fuel as [|fuel IH]; intros fuel' graph origin root stack explored r; [done|].
  destruct fuel' as [|fuel']; [lia|]. simpl. intros H Hle.
  repeat case_bool_decide; try done.
  - destruct (pop stack) as [[top rest]|]; [|done]. apply (IH fuel'); [done|lia].
  - destruct (filter _ _) as [|c cs].
    + destruct (pop stack) as [[top rest]|]; [|done]. apply (IH fuel'); [done|lia].
    + apply (IH fuel'); [done|lia].
Qed.

Lemma find_cycle_mono fuel fuel' graph origin r :
  _find_cycle fuel graph origin = Ok r → (fuel ≤ fuel')%nat →
  _find_cycle fuel' graph origin = Ok r.
Proof. apply find_cycle_loop_mono. Qed.

(** Two runs that both return agree. *)
Lemma find_cycle_functional fuel fuel' graph origin r r' :
  _find_cycle fuel graph origin = Ok r → _find_cycle fuel' graph origin = Ok r' → r = r'.
Proof.
  intros H H'.
  apply (find_cycle_mono _ (fuel `max` fuel')) in H; [|lia].
  apply (find_cycle_mono _ (fuel `max` fuel')) in H'; [|lia].
  congruence.
Qed.

(** *** Termination *)

Lemma unexplored_snoc_le univ explored root :
  (unexplored univ (explored ++ [root]) ≤ unexplored univ explored)%nat.
Proof.
  unfold unexplored. induction univ as [|x univ IH]; simpl; [done|].
  rewrite !filter_cons. repeat case_decide; simpl; try lia.
  exfalso. set_solver.
Qed.

Lemma unexplored_snoc_lt univ explored root :
  root ∈ univ → root ∉ explored →
  (unexplored univ (explored ++ [root]) < unexplored univ explored)%nat.
Proof.
  unfold unexplored. intros Hin Hne. induction univ as [|x univ IH]; [by apply elem_of_nil in Hin|].
  pose proof (unexplored_snoc_le univ explored root) as Hle. unfold unexplored in Hle.
  rewrite !filter_cons. apply elem_of_cons in Hin as [<-|Hin].
  - rewrite decide_False by set_solver. rewrite decide_True by done. simpl. lia.
  - specialize (IH Hin). repeat case_decide; simpl; try lia. exfalso. set_solver.
Qed.

Lemma unexplored_snoc_eq univ explored root :
  root ∈ explored → unexplored univ (explored ++ [root]) = unexplored univ explored.
Proof.
  unfold unexplored. intros Hin. induction univ as [|x univ IH]; [done|].
  rewrite !filter_cons. repeat case_decide; simpl; try congruence; exfalso; set_solver.
Qed.

(** A pop lowers the weight. *)
Lemma weight_pop root stack explored top rest :
  pop stack = Some (top, rest) →
  (weight top rest explored < weight root stack explored)%nat.
Proof.
  intros ->%pop_Some. unfold weight. rewrite length_app, last_snoc. simpl.
  destruct (decide (root ∈ explored)) as [Hr|Hr].
  - repeat case_decide; lia.
  - destruct (decide (Some top = Some root)) as [[= ->]|Hne].
    + rewrite (decide_False (P := root ∈ explored)) by done. case_decide; lia.
    + repeat case_decide; lia.
Qed.

(** A push from an explored root lowers the weight. *)
Lemma weight_push root stack explored c :
  root ∈ explored → c ∉ explored →
  (weight c (stack ++ [c]) (explored ++ [root]) < weight root stack explored)%nat.
Proof.
  intros Hr Hc. unfold weight. rewrite length_app, last_snoc. simpl.
  rewrite (decide_True (P := root ∈ explored)) by done.
  rewrite (decide_False (P := c ∈ explored ++ [root])) by set_solver.
  rewrite decide_True by done. lia.
Qed.

Lemma find_cycle_loop_terminates graph origin (univ : list Node) :
  (∀ n e, e ∈ get_outbound_edges n graph → destination e ∈ univ) →
  ∀ u w root stack explored,
    root ∈ univ → (∀ x, x ∈ stack → x ∈ univ) →
    unexplored univ explored = u → weight root stack explored = w →
    ∃ fuel r, find_cycle_loop fuel graph origin root stack explored = Ok r.
Proof.
  intros Hclosed u.
  induction u as [u IHu] using lt_wf_ind. intros w.
  induction w as [w IHw] using lt_wf_ind.
  intros root stack explored Hroot Hstack Hu Hw.
  assert (Hpop : ∀ top rest, pop stack = Some (top, rest) →
            ∃ fuel r, find_cycle_loop fuel graph origin top rest explored = Ok r).
  { intros top rest Hp.
    pose proof (weight_pop root _ explored _ _ Hp) as Hlt.
    apply pop_Some in Hp as ->.
    eapply (IHw (weight top rest explored)); [lia| |intros x Hx|done..].
    - apply Hstack. set_solver.
    - apply Hstack. set_solver. }
  destruct (decide (0 < length stack)%nat) as [Hlen|Hlen].
  2:{ exists 1%nat, None. simpl. by rewrite bool_decide_false. }
  assert (Hsome : ∃ top rest, pop stack = Some (top, rest)).
  { destruct (pop stack) as [[top rest]|] eqn:E; [eauto|].
    apply pop_None in E as ->. simpl in Hlen. lia. }
  destruct Hsome as (top & rest & Hp).
  destruct (decide (length (destination <$> get_outbound_edges root graph) = 0%nat)) as [Hout|Hout].
  { destruct (Hpop _ _ Hp) as (fuel & r & Hr). exists (S fuel), r. simpl.
    rewrite bool_decide_true by done. rewrite bool_decide_true by done.
    by rewrite Hp. }
  destruct (decide (origin ∈ destination <$> get_outbound_edges root graph)) as [Ho|Ho].
  { exists 1%nat, (Some stack). simpl.
    rewrite bool_decide_true by done. rewrite bool_decide_false by done.
    by rewrite bool_decide_true by done. }
  destruct (filter (λ x, x ∉ explored) (destination <$> get_outbound_edges root graph))
    as [|c cs] eqn:Hcand.
  { destruct (Hpop _ _ Hp) as (fuel & r & Hr). exists (S fuel), r. simpl.
    rewrite bool_decide_true by done. rewrite bool_decide_false by done.
    rewrite bool_decide_false by done. by rewrite Hcand, Hp. }
  assert (Hc : c ∈ filter (λ x, x ∉ explored) (destination <$> get_outbound_edges root graph))
    by (rewrite Hcand; left).
  apply list_elem_of_filter in Hc as [Hcne Hcin].
  apply list_elem_of_fmap in Hcin as (e & -> & He).
  assert (Hcu : destination e ∈ univ) by eauto.
  assert (Hst : ∀ x, x ∈ stack ++ [destination e] → x ∈ univ).
  { intros x [Hx|Hx%list_elem_of_singleton]%elem_of_app; [auto|by subst]. }
  assert (Hnext : ∃ fuel r, find_cycle_loop fuel graph origin (destination e)
                    (stack ++ [destination e]) (explored ++ [root]) = Ok r).
  { destruct (decide (root ∈ explored)) as [Hr|Hr].
    - eapply (IHw (weight (destination e) (stack ++ [destination e]) (explored ++ [root])));
        [|done|done| |done].
      + subst w. by apply weight_push.
      + subst u. by apply unexplored_snoc_eq.
    - eapply (IHu (unexplored univ (explored ++ [root]))); [|done|done|done|done].
      subst u. by apply unexplored_snoc_lt. }
  destruct Hnext as (fuel & r & Hr). exists (S fuel), r. simpl.
  rewrite bool_decide_true by done. rewrite bool_decide_false by done.
  rewrite bool_decide_false by done. by rewrite Hcand.
Qed.

End CycleSearch.

(** ** Which searches a run starts *)

Ltac trace_step :=
  match goal with
  | |- Forall _ (trace (bind _ _)) => apply trace_bind_Forall
  | |- Forall _ (trace (for_each _ _ _)) => apply trace_for_each_Forall
  | |- Forall _ (trace (ret _)) => apply Forall_nil_2
  | |- Forall _ (trace (raise _)) => apply Forall_nil_2
  | |- Forall _ (trace (emit _)) => apply Forall_singleton; simpl
  | |- Forall _ (trace (_, _)) => apply Forall_nil_2
  | |- Forall _ (trace (if ?b then _ else _)) => destruct b eqn:?
  | |- Forall _ (trace (match ?x with _ => _ end)) => destruct x eqn:?
  | |- Forall _ (trace (let '(_, _) := ?x in _)) => destruct x eqn:?
  | |- ∀ _, _ => intro
  end.

Ltac trace_leaf :=
  first [ done | apply (bool_decide_unpack _); vm_compute; exact I ].

Section Traces.

Context `{Q : Querying}.

Lemma can_call_without_mfa_trace node actions :
  Forall expected_event (trace (_can_call_without_mfa node actions)).
Proof.
  induction actions as [|a actions IH]; cbn [_can_call_without_mfa].
  - apply Forall_nil_2.
  - unfold call_local_check_authorization_handling_mfa.
    repeat trace_step; trace_leaf.
Qed.

Lemma gen_privesc_findings_trace graph :
  Forall expected_event (trace (gen_privesc_findings graph)).
Proof.
  unfold gen_privesc_findings, privesc_node_path_list, call_can_privesc.
  repeat trace_step; trace_leaf.
Qed.

Lemma gen_admin_users_without_mfa_finding_trace graph :
  Forall expected_event (trace (gen_admin_users_without_mfa_finding graph)).
Proof. unfold gen_admin_users_without_mfa_finding. repeat trace_step; trace_leaf. Qed.

Lemma gen_mfa_actions_findings_trace graph :
  Forall expected_event (trace (gen_mfa_actions_findings graph)).
Proof.
  unfold gen_mfa_actions_findings, mfa_affected_users.
  repeat first [apply can_call_without_mfa_trace | trace_step]; trace_leaf.
Qed.

Lemma gen_overprivileged_function_findings_trace graph :
  Forall expected_event (trace (gen_overprivileged_function_findings graph)).
Proof.
  unfold gen_overprivileged_function_findings, call_resource_policy_authorization.
  repeat trace_step; trace_leaf.
Qed.

Lemma gen_overprivileged_instance_profile_findings_trace graph :
  Forall expected_event (trace (gen_overprivileged_instance_profile_findings graph)).
Proof. unfold gen_overprivileged_instance_profile_findings. repeat trace_step; trace_leaf. Qed.

Lemma gen_overprivileged_stack_findings_trace graph :
  Forall expected_event (trace (gen_overprivileged_stack_findings graph)).
Proof.
  unfold gen_overprivileged_stack_findings, call_resource_policy_authorization.
  repeat trace_step; trace_leaf.
Qed.

Lemma gen_os_lpe_finding_trace graph :
  Forall expected_event (trace (gen_os_lpe_finding graph)).
Proof.
  unfold gen_os_lpe_finding, os_lpe_affected_roles, call_local_check_authorization.
  repeat trace_step; trace_leaf.
Qed.

Lemma gen_circular_access_finding_trace fuel graph :
  Forall expected_event (trace (gen_circular_access_finding fuel graph)).
Proof.
  unfold gen_circular_access_finding, circular_cycles, call_find_cycle.
  repeat trace_step; trace_leaf.
Qed.

Lemma gen_all_findings_trace fuel graph :
  Forall expected_event (trace (gen_all_findings fuel graph)).
Proof.
  unfold gen_all_findings.
  repeat first
    [ apply gen_privesc_findings_trace
    | apply gen_admin_users_without_mfa_finding_trace
    | apply gen_mfa_actions_findings_trace
    | apply gen_overprivileged_function_findings_trace
    | apply gen_overprivileged_instance_profile_findings_trace
    | apply gen_overprivileged_stack_findings_trace
    | apply gen_os_lpe_finding_trace
    | apply gen_circular_access_finding_trace
    | trace_step ].
Qed.

End Traces.

(** ** Loops *)

Lemma for_each_result_ind {A S} (I : list A → S → Prop) (body : S → A → M S) :
  ∀ (l : list A) (s : S) (r : S),
    I [] s →
    (∀ pre x suf s s', l = pre ++ x :: suf → I pre s →
       result (body s x) = Ok s' → I (pre ++ [x]) s') →
    result (for_each l body s) = Ok r → I l r.
Proof.
  intros l. revert I. induction l as [|x l IH]; intros I s r H0 Hstep; simpl.
  - by intros [= <-].
  - intros (s' & Hs' & Hr)%result_bind_Ok_inv.
    apply (IH (λ pre, I (x :: pre)) s' r); [|intros pre y suf s1 s2 -> Hp|done].
    + by apply (Hstep [] x l s s').
    + by apply (Hstep (x :: pre) y suf).
Qed.

Lemma for_each_result_total {A S} (l : list A) (body : S → A → M S) :
  (∀ s x, x ∈ l → ∃ s', result (body s x) = Ok s') →
  ∀ s, ∃ r, result (for_each l body s) = Ok r.
Proof.
  induction l as [|x l IH]; intros Hb s; simpl; [by eexists|].
  destruct (Hb s x) as [s' Hs']; [left|].
  destruct (IH (λ s y Hy, Hb s y (list_elem_of_further _ _ _ Hy)) s') as [r Hr].
  exists r. by rewrite (result_bind_Ok _ _ _ Hs').
Qed.

(** A loop whose body changes only where the first run did not return
    normally runs the same. *)
Lemma for_each_ext_Ok {A S} (l : list A) (body body' : S → A → M S) :
  (∀ s x s', x ∈ l → result (body s x) = Ok s' → body' s x = body s x) →
  ∀ s r, result (for_each l body s) = Ok r → for_each l body' s = for_each l body s.
Proof.
  induction l as [|x l IH]; intros Hb s r; simpl; [done|].
  intros (s' & Hs' & Hr)%result_bind_Ok_inv.
  rewrite (Hb s x s'); [|left|done].
  destruct (body s x) as [t o]. simpl in Hs'. subst o. simpl.
  rewrite (IH (λ s y s' Hy, Hb s y s' (list_elem_of_further _ _ _ Hy)) s' r Hr). done.
Qed.

Lemma bind_ext_Ok {A B} (m : M A) (k k' : A → M B) :
  (∀ a, result m = Ok a → k' a = k a) → bind m k' = bind m k.
Proof.
  destruct m as [t [a| |]]; simpl; [|done..]. intros H. by rewrite (H a).
Qed.

(** ** Strings *)

Lemma str_app_assoc (a b c : string) : (a +:+ b) +:+ c = a +:+ (b +:+ c).
Proof.
  induction a as [|x a IH]; [done|].
  change (String x ((a +:+ b) +:+ c) = String x (a +:+ b +:+ c)). by rewrite IH.
Qed.

Lemma str_app_empty_r (a : string) : a +:+ "" = a.
Proof.
  induction a as [|x a IH]; [done|].
  change (String x (a +:+ "") = String x a). by rewrite IH.
Qed.

Lemma occurs_in_refl (s : string) : occurs_in s s.
Proof.
  exists "", "". by rewrite str_app_empty_r.
Qed.

Lemma occurs_in_app_l (s a b : string) : occurs_in s a → occurs_in s (a +:+ b).
Proof.
  intros (pre & post & ->). exists pre, (post +:+ b).
  by rewrite !str_app_assoc.
Qed.

Lemma occurs_in_app_r (s a b : string) : occurs_in s b → occurs_in s (a +:+ b).
Proof.
  intros (pre & post & ->). exists (a +:+ pre), post.
  by rewrite !str_app_assoc.
Qed.

Lemma occurs_in_fold_left_acc {A} (g : A → string) (s : string) (l : list A) :
  ∀ acc, occurs_in s acc → occurs_in s (fold_left (λ a x, a +:+ g x) l acc).
Proof.
  induction l as [|x l IH]; intros acc H; simpl; [done|].
  apply IH. by apply occurs_in_app_l.
Qed.

Lemma occurs_in_fold_left_elem {A} (g : A → string) (s : string) (l : list A) (x : A) :
  x ∈ l → occurs_in s (g x) →
  ∀ acc, occurs_in s (fold_left (λ a x, a +:+ g x) l acc).
Proof.
  induction l as [|y l IH]; intros Hin Hg acc; [by apply elem_of_nil in Hin|].
  simpl. apply elem_of_cons in Hin as [<-|Hin].
  - apply occurs_in_fold_left_acc. by apply occurs_in_app_r.
  - by apply IH.
Qed.

Section Results.

Context `{Q : Querying}.

Lemma bullet_lines_names (l : list Node) (node : Node) :
  node ∈ l → occurs_in (searchable_name node) (bullet_lines l).
Proof.
  intros Hin. unfold bullet_lines.
  apply (occurs_in_fold_left_elem (λ n, "* " +:+ searchable_name n +:+ nl) _ _ node Hin).
  apply occurs_in_app_r, occurs_in_app_l, occurs_in_refl.
Qed.

(** *** The MFA-actions rule *)

Lemma can_call_without_mfa_total node actions :
  ∃ b, result (_can_call_without_mfa node actions) = Ok b.
Proof.
  induction actions as [|a actions [b IH]]; cbn [_can_call_without_mfa]; [by eexists|].
  unfold call_local_check_authorization_handling_mfa, bind, emit, ret. simpl.
  destruct (local_check_authorization_handling_mfa node a "*" ∅) as [auth needmfa].
  destruct (auth && negb needmfa); [by eexists|].
  destruct (_can_call_without_mfa node actions) as [t o]. simpl in *. subst. by eexists.
Qed.

Lemma can_call_without_mfa_first node action actions :
  local_check_authorization_handling_mfa node action "*" ∅ = (true, false) →
  result (_can_call_without_mfa node (action :: actions)) = Ok true.
Proof.
  intros H. cbn [_can_call_without_mfa].
  unfold call_local_check_authorization_handling_mfa, bind, emit, ret. simpl.
  by rewrite H.
Qed.

Lemma can_call_without_mfa_create_user node :
  local_check_authorization_handling_mfa node "iam:CreateUser" "*" ∅ = (true, false) →
  result (_can_call_without_mfa node mfa_sensitive_actions) = Ok true.
Proof. apply can_call_without_mfa_first. Qed.

Lemma mfa_affected_users_total graph :
  ∃ l, result (mfa_affected_users graph) = Ok l.
Proof.
  apply for_each_result_total. intros s x _. cbv beta zeta.
  destruct (_ && _); [|by eexists].
  destruct (can_call_without_mfa_total x mfa_sensitive_actions) as [b Hb].
  rewrite (result_bind_Ok _ _ _ Hb). destruct b; by eexists.
Qed.

Lemma mfa_affected_users_complete graph l node :
  result (mfa_affected_users graph) = Ok l →
  node ∈ nodes graph →
  str_in ":user/" (arn node) = true → is_admin node = true → 0 < access_keys node →
  local_check_authorization_handling_mfa node "iam:CreateUser" "*" ∅ = (true, false) →
  node ∈ l.
Proof.
  intros Hl Hin Huser Hadmin Hkeys Hauth.
  revert Hin.
  eapply (for_each_result_ind (λ pre s, node ∈ pre → node ∈ s)); [| |exact Hl].
  { intros H. by apply elem_of_nil in H. }
  intros pre x suf s s' _ IH Hbody [Hpre|Hx%list_elem_of_singleton]%elem_of_app;
    cbv beta zeta in Hbody.
  - specialize (IH Hpre). destruct (_ && _); [|injection Hbody as <-; done].
    apply result_bind_Ok_inv in Hbody as (b & _ & Hb).
    destruct b; injection Hb as <-; set_solver.
  - subst x. rewrite Huser, Hadmin, bool_decide_true in Hbody by done. simpl in Hbody.
    rewrite (result_bind_Ok _ _ _ (can_call_without_mfa_create_user _ Hauth)) in Hbody.
    injection Hbody as <-. set_solver.
Qed.

End Results.

(** ** The claims about the cycle search *)

(** C5.  On a graph whose edges lead to nodes of the graph, the cycle search
    returns from every origin: some number of iterations of its loop is
    enough, whatever the edges are, a complete graph included. *)
Theorem find_cycle_terminates `{Q : Querying} (graph : Graph) (origin : Node) :
  (∀ n e, e ∈ get_outbound_edges n graph → destination e ∈ nodes graph) →
  ∃ fuel r, _find_cycle fuel graph origin = Ok r.
Proof.
  intros Hclosed.
  apply (find_cycle_loop_terminates graph origin (origin :: nodes graph))
    with (u := unexplored (origin :: nodes graph) [])
         (w := weight origin [origin] []);
    [intros n e He; right; by eapply Hclosed | set_solver..].
Qed.

Lemma complete_graph_closed (n : Node) (e : Edge) :
  e ∈ @get_outbound_edges quiet_querying n complete_graph →
  destination e ∈ nodes complete_graph.
Proof.
  intros [_ He]%list_elem_of_filter. simpl in He.
  repeat (apply elem_of_cons in He as [->|He]); simpl; set_solver.
Qed.

Lemma find_cycle_terminates_witness :
  ∃ fuel r, @_find_cycle quiet_querying fuel complete_graph role_A = Ok r.
Proof.
  exact (@find_cycle_terminates quiet_querying complete_graph role_A
           complete_graph_closed).
Defined.

(** C10.  From an origin without outbound edges the search returns [None]. *)
Theorem find_cycle_no_outbound_edges `{Q : Querying} (graph : Graph) (origin : Node)
    (fuel : nat) :
  get_outbound_edges origin graph = [] → (2 ≤ fuel)%nat →
  _find_cycle fuel graph origin = Ok None.
Proof.
  intros Hout Hfuel. destruct fuel as [|[|fuel]]; [lia..|].
  unfold _find_cycle. simpl. by rewrite Hout.
Qed.

Lemma find_cycle_no_outbound_edges_witness :
  @get_outbound_edges quiet_querying role_A anonymous_graph = [] ∧
  (2 ≤ 2)%nat ∧
  @_find_cycle quiet_querying 2 anonymous_graph role_A = Ok None.
Proof.
  split; [reflexivity|]. split; [lia|].
  apply (@find_cycle_no_outbound_edges quiet_querying); [reflexivity|lia].
Defined.

(** C3 (what the code does).  In the graph O -> A, A -> B, A -> C, B -> D,
    C -> O the search from O returns the list [O; C], and the graph has no
    edge from O to C: the list is not a path of the graph.  The cycle of the
    graph through O is O -> A -> C -> O. *)
Theorem find_cycle_detour_not_a_path :
  (@_find_cycle quiet_querying 10 detour_graph role_O
     = Ok (Some [role_O; role_C])) ∧
  (role_C ∉ destination <$> @get_outbound_edges quiet_querying role_O detour_graph) ∧
  (role_A ∈ destination <$> @get_outbound_edges quiet_querying role_O detour_graph) ∧
  (role_C ∈ destination <$> @get_outbound_edges quiet_querying role_A detour_graph) ∧
  (role_O ∈ destination <$> @get_outbound_edges quiet_querying role_C detour_graph).
Proof.
  split; [vm_compute; reflexivity|].
  repeat split; apply (bool_decide_unpack _); vm_compute; exact I.
Qed.

(** ** The claims about the rules *)

Section RuleClaims.

Context `{Q : Querying}.

Lemma privesc_node_path_list_sound graph l :
  result (privesc_node_path_list graph) = Ok l →
  ∀ node edge_list, (node, edge_list) ∈ l →
    node ∈ nodes graph ∧ is_admin node = false ∧
    can_privesc graph node = (true, edge_list).
Proof.
  intros Hl.
  eapply (for_each_result_ind
            (λ pre s, ∀ node edge_list, (node, edge_list) ∈ s →
               node ∈ pre ∧ is_admin node = false ∧
               can_privesc graph node = (true, edge_list))); [| |exact Hl].
  - intros node edge_list H. by apply elem_of_nil in H.
  - intros pre x suf s s' _ IH Hbody node edge_list Hin. cbv beta zeta in Hbody.
    assert (Hold : (node, edge_list) ∈ s → node ∈ pre ++ [x] ∧ is_admin node = false ∧
                     can_privesc graph node = (true, edge_list)).
    { intros (? & ? & ?)%IH. split; [set_solver|done]. }
    destruct (is_admin x) eqn:Hadm; [injection Hbody as <-; auto|].
    unfold call_can_privesc, bind, emit, ret in Hbody. simpl in Hbody.
    destruct (can_privesc graph x) as [privesc_res el] eqn:Hcp.
    destruct privesc_res; simpl in Hbody; injection Hbody as <-; [|auto].
    apply elem_of_app in Hin as [Hin|Hin%list_elem_of_singleton]; [auto|].
    injection Hin as -> ->. split; [set_solver|done].
Qed.

Lemma circular_cycles_sound fuel graph cycles :
  result (circular_cycles fuel graph) = Ok cycles →
  ∀ cycle, cycle ∈ cycles →
    ∃ origin, origin ∈ nodes graph ∧ is_admin origin = false ∧
              _find_cycle fuel graph origin = Ok (Some cycle).
Proof.
  intros Hl.
  eapply (for_each_result_ind
            (λ pre s, ∀ cycle, cycle ∈ s →
               ∃ origin, origin ∈ pre ∧ is_admin origin = false ∧
                         _find_cycle fuel graph origin = Ok (Some cycle)));
    [| |exact Hl].
  - intros cycle H. by apply elem_of_nil in H.
  - intros pre x suf s s' _ IH Hbody cycle Hin. cbv beta zeta in Hbody.
    assert (Hold : cycle ∈ s → ∃ origin, origin ∈ pre ++ [x] ∧ is_admin origin = false ∧
                     _find_cycle fuel graph origin = Ok (Some cycle)).
    { intros (o & ? & ? & ?)%IH. exists o. split; [set_solver|done]. }
    destruct (is_admin x) eqn:Hadm; [injection Hbody as <-; auto|].
    unfold call_find_cycle, bind, emit, ret in Hbody. simpl in Hbody.
    destruct (_find_cycle fuel graph x) as [[c|]| |] eqn:Hfc; simpl in Hbody; try done.
    + injection Hbody as <-.
      apply elem_of_app in Hin as [Hin|Hin%list_elem_of_singleton]; [auto|].
      subst c. exists x. split; [set_solver|done].
    + injection Hbody as <-. auto.
Qed.

(** C7.  No search starts from an administrative principal: a run of the
    escalation rule never calls [can_privesc] on it, a run of the circular
    access rule never calls [_find_cycle] with it as origin, the same holds
    for a whole run of [gen_all_findings], and the principals and cycles the
    two rules report come from searches started elsewhere. *)
Theorem admin_never_search_origin (fuel : nat) (graph : Graph) (n : Node) :
  is_admin n = true →
  (Call_can_privesc n ∉ trace (gen_privesc_findings graph)) ∧
  (Call_find_cycle n ∉ trace (gen_circular_access_finding fuel graph)) ∧
  (Call_can_privesc n ∉ trace (gen_all_findings fuel graph)) ∧
  (Call_find_cycle n ∉ trace (gen_all_findings fuel graph)) ∧
  (∀ l edge_list, result (privesc_node_path_list graph) = Ok l → (n, edge_list) ∉ l) ∧
  (∀ cycles cycle, result (circular_cycles fuel graph) = Ok cycles → cycle ∈ cycles →
     ∃ origin, origin ≠ n ∧ origin ∈ nodes graph ∧
               _find_cycle fuel graph origin = Ok (Some cycle)).
Proof.
  intros Hadm.
  assert (Hev : ∀ t e, Forall expected_event t → e ∈ t → expected_event e).
  { intros t e Ht He. by eapply Forall_forall in Ht. }
  repeat split.
  - intros H. apply (Hev _ _ (gen_privesc_findings_trace graph)) in H. simpl in H. congruence.
  - intros H. apply (Hev _ _ (gen_circular_access_finding_trace fuel graph)) in H.
    simpl in H. congruence.
  - intros H. apply (Hev _ _ (gen_all_findings_trace fuel graph)) in H. simpl in H. congruence.
  - intros H. apply (Hev _ _ (gen_all_findings_trace fuel graph)) in H. simpl in H. congruence.
  - intros l edge_list Hl Hin.
    destruct (privesc_node_path_list_sound _ _ Hl _ _ Hin) as (_ & ? & _). congruence.
  - intros cycles cycle Hl Hin.
    destruct (circular_cycles_sound _ _ _ Hl _ Hin) as (o & ? & ? & ?).
    exists o. split; [congruence|done].
Qed.

End RuleClaims.

Lemma admin_never_search_origin_witness :
  is_admin user_Bob = true ∧
  (Call_can_privesc user_Bob ∉
     trace (@gen_all_findings quiet_querying 5 bob_graph)) ∧
  (Call_find_cycle user_Bob ∉
     trace (@gen_all_findings quiet_querying 5 bob_graph)).
Proof.
  split; [reflexivity|].
  pose proof (@admin_never_search_origin quiet_querying 5 bob_graph user_Bob
                eq_refl) as (_ & _ & H1 & H2 & _).
  exact (conj H1 H2).
Defined.

Section MoreRuleClaims.

Context `{Q : Querying}.

(** *** The bound on loop iterations *)

(** The bound handed to the cycle search is the only thing in the model that
    the program does not have.  A run that returns under one bound is the
    same run, with the same calls and the same findings, under every larger
    one. *)

Lemma circular_cycles_mono fuel fuel' graph cycles :
  result (circular_cycles fuel graph) = Ok cycles → (fuel ≤ fuel')%nat →
  circular_cycles fuel' graph = circular_cycles fuel graph.
Proof.
  intros Hl Hle. unfold circular_cycles in *.
  eapply for_each_ext_Ok; [|exact Hl].
  intros s x s' _ Hbody. cbv beta zeta in *.
  destruct (is_admin x); [done|].
  unfold call_find_cycle, bind, emit in *. simpl in *.
  destruct (_find_cycle fuel graph x) as [r| |] eqn:Hfc; try done.
  by rewrite (find_cycle_mono _ _ _ _ _ Hfc Hle).
Qed.

Lemma gen_circular_access_finding_mono fuel fuel' graph r :
  result (gen_circular_access_finding fuel graph) = Ok r → (fuel ≤ fuel')%nat →
  gen_circular_access_finding fuel' graph = gen_circular_access_finding fuel graph.
Proof.
  unfold gen_circular_access_finding. intros Hr Hle.
  apply result_bind_Ok_inv in Hr as ([] & _ & Hr).
  apply result_bind_Ok_inv in Hr as (cycles & Hc & _).
  by rewrite (circular_cycles_mono _ _ _ _ Hc Hle).
Qed.

Lemma gen_all_findings_mono fuel fuel' graph r :
  result (gen_all_findings fuel graph) = Ok r → (fuel ≤ fuel')%nat →
  gen_all_findings fuel' graph = gen_all_findings fuel graph.
Proof.
  unfold gen_all_findings. intros Hr Hle.
  do 7 (apply result_bind_Ok_inv in Hr as (? & _ & Hr)).
  do 7 (apply bind_ext_Ok; intros ? _).
  apply result_bind_Ok_inv in Hr as (? & Hc & _).
  by rewrite (gen_circular_access_finding_mono _ _ _ _ Hc Hle).
Qed.

(** *** The MFA-actions rule *)

(** C9.  When the graph holds an administrative IAM user with an access key
    whom the simulator lets call [iam:CreateUser] without asking for MFA,
    the MFA-actions rule returns exactly one finding, of severity Medium,
    and its description names that user. *)
Theorem mfa_actions_scenario (graph : Graph) (node : Node) :
  node ∈ nodes graph →
  str_in ":user/" (arn node) = true → is_admin node = true → 0 < access_keys node →
  local_check_authorization_handling_mfa node "iam:CreateUser" "*" ∅ = (true, false) →
  ∃ f, result (gen_mfa_actions_findings graph) = Ok [f] ∧
       severity f = "Medium" ∧
       occurs_in (searchable_name node) (description f).
Proof.
  intros Hin Huser Hadmin Hkeys Hauth.
  destruct (mfa_affected_users_total graph) as [l Hl].
  pose proof (mfa_affected_users_complete _ _ _ Hl Hin Huser Hadmin Hkeys Hauth) as Hnode.
  unfold gen_mfa_actions_findings.
  rewrite (result_bind_Ok (emit _) _ tt) by done.
  rewrite (result_bind_Ok _ _ _ Hl).
  rewrite bool_decide_true by (destruct l; [by apply elem_of_nil in Hnode|simpl; lia]).
  eexists. split; [reflexivity|]. split; [reflexivity|].
  simpl. apply occurs_in_app_r. by apply bullet_lines_names.
Qed.

(** *** The SSM rule *)

(** C6 (as amended).  Every role the SSM rule reports is a node of the graph
    whose ARN holds [:role/], that has an instance profile, and that the
    simulator lets call [ssmmessages:*] and one of [ssm:SendCommand] and
    [ssm:StartSession].  Whether it is administrative plays no part. *)
Theorem os_lpe_affected_roles_sound (graph : Graph) (l : list Node) (n : Node) :
  result (os_lpe_affected_roles graph) = Ok l → n ∈ l →
  n ∈ nodes graph ∧
  str_in ":role/" (arn n) = true ∧
  (∃ profiles, instance_profile n = Some profiles ∧ (0 < length profiles)%nat) ∧
  local_check_authorization n "ssmmessages:*" "*" ∅ = true ∧
  (local_check_authorization n "ssm:SendCommand" "*" ∅ = true ∨
   local_check_authorization n "ssm:StartSession" "*" ∅ = true).
Proof.
  intros Hl. revert n.
  eapply (for_each_result_ind
            (λ pre s, ∀ n, n ∈ s →
               n ∈ pre ∧ str_in ":role/" (arn n) = true ∧
               (∃ profiles, instance_profile n = Some profiles ∧ (0 < length profiles)%nat) ∧
               local_check_authorization n "ssmmessages:*" "*" ∅ = true ∧
               (local_check_authorization n "ssm:SendCommand" "*" ∅ = true ∨
                local_check_authorization n "ssm:StartSession" "*" ∅ = true)));
    [| |exact Hl].
  - intros n H. by apply elem_of_nil in H.
  - intros pre x suf s s' _ IH Hbody n Hin. cbv beta zeta in Hbody.
    assert (Hold : n ∈ s → n ∈ pre ++ [x] ∧ str_in ":role/" (arn n) = true ∧
               (∃ profiles, instance_profile n = Some profiles ∧ (0 < length profiles)%nat) ∧
               local_check_authorization n "ssmmessages:*" "*" ∅ = true ∧
               (local_check_authorization n "ssm:SendCommand" "*" ∅ = true ∨
                local_check_authorization n "ssm:StartSession" "*" ∅ = true)).
    { intros (? & ?)%IH. split; [set_solver|done]. }
    assert (Hnew : str_in ":role/" (arn x) = true →
               (∃ profiles, instance_profile x = Some profiles ∧ (0 < length profiles)%nat) →
               local_check_authorization x "ssmmessages:*" "*" ∅ = true →
               (local_check_authorization x "ssm:SendCommand" "*" ∅ = true ∨
                local_check_authorization x "ssm:StartSession" "*" ∅ = true) →
               n ∈ s ++ [x] → n ∈ pre ++ [x] ∧ str_in ":role/" (arn n) = true ∧
               (∃ profiles, instance_profile n = Some profiles ∧ (0 < length profiles)%nat) ∧
               local_check_authorization n "ssmmessages:*" "*" ∅ = true ∧
               (local_check_authorization n "ssm:SendCommand" "*" ∅ = true ∨
                local_check_authorization n "ssm:StartSession" "*" ∅ = true)).
    { intros ? ? ? ? [?|Hx%list_elem_of_singleton]%elem_of_app; [auto|]. subst n.
      split; [set_solver|done]. }
    destruct (str_in ":role/" (arn x)) eqn:Hrole; [|injection Hbody as <-; auto].
    destruct (instance_profile x) as [profiles|] eqn:Hip; [|injection Hbody as <-; auto].
    case_bool_decide as Hlen; [|injection Hbody as <-; auto].
    unfold call_local_check_authorization, bind, emit, ret in Hbody. simpl in Hbody.
    destruct (local_check_authorization x "ssmmessages:*" "*" ∅) eqn:H1; simpl in Hbody;
      [|injection Hbody as <-; auto].
    destruct (local_check_authorization x "ssm:SendCommand" "*" ∅) eqn:H2; simpl in Hbody.
    { injection Hbody as <-. apply Hnew; eauto. }
    destruct (local_check_authorization x "ssm:StartSession" "*" ∅) eqn:H3; simpl in Hbody.
    { injection Hbody as <-. apply Hnew; eauto. }
    injection Hbody as <-. auto.
Qed.

End MoreRuleClaims.

(** *** The confused-deputy rule *)

Lemma occurs_in_join (sep s : string) (l : list string) (x : string) :
  x ∈ l → occurs_in s x → occurs_in s (join sep l).
Proof.
  unfold join. induction l as [|y l IH]; intros Hin Hs; [by apply elem_of_nil in Hin|].
  destruct l as [|z l].
  - apply list_elem_of_singleton in Hin as ->. done.
  - change (occurs_in s (y +:+ sep +:+ String.concat sep (z :: l))).
    apply elem_of_cons in Hin as [<-|Hin].
    + by apply occurs_in_app_l.
    + apply occurs_in_app_r, occurs_in_app_r. by apply IH.
Qed.

Section ConfusedDeputy.

Context `{Q : Querying}.

(** The rule reports every policy of an S3 resource, whatever the evaluation
    of the policy answers. *)
Lemma confused_deputy_affected_policies_all graph account_id :
  metadata graph !! "account_id" = Some account_id →
  result (confused_deputy_affected_policies graph) =
    Ok (confused_deputy_entry <$>
          filter (λ policy, get_service (policy_arn policy) = "s3") (policies graph)).
Proof.
  intros Hmeta. unfold confused_deputy_affected_policies, resource_service_action_map.
  cbn [for_each].
  match goal with
  | |- result (bind (for_each ?ps ?body []) _) = _ =>
    assert (Hloop : ∀ l acc,
              result (for_each l body acc) =
                Ok (acc ++ (confused_deputy_entry <$>
                              filter (λ policy, get_service (policy_arn policy) = "s3") l)))
  end.
  { induction l as [|p l IH]; intros acc.
    - simpl. by rewrite app_nil_r.
    - cbn [for_each]. rewrite filter_cons.
      match goal with
      | |- result (bind ?m _) = _ =>
        assert (Hbody : result m =
                  Ok (if decide (get_service (policy_arn p) = "s3")
                      then acc ++ [confused_deputy_entry p] else acc))
      end.
      { case_bool_decide as Hs3.
        - rewrite decide_True by done.
          cbn [for_each]. unfold metadata_get. rewrite Hmeta. reflexivity.
        - by rewrite decide_False by done. }
      rewrite (result_bind_Ok _ _ _ Hbody), IH.
      case_decide; [|done]. by rewrite fmap_cons, <- app_assoc. }
  specialize (Hloop (policies graph) []).
  rewrite (result_bind_Ok _ _ _ Hloop). done.
Qed.

Lemma confused_deputy_flags_every_s3_policy graph account_id policy :
  metadata graph !! "account_id" = Some account_id →
  policy ∈ policies graph → get_service (policy_arn policy) = "s3" →
  ∃ f, result (gen_resources_with_potential_confused_deputies graph) = Ok [f] ∧
       occurs_in (policy_arn policy) (description f) ∧
       occurs_in "s3:GetObject" (description f).
Proof.
  intros Hmeta Hin Hs3.
  pose proof (confused_deputy_affected_policies_all _ _ Hmeta) as Hl.
  assert (Hentry : confused_deputy_entry policy ∈
            confused_deputy_entry <$>
              filter (λ policy, get_service (policy_arn policy) = "s3") (policies graph)).
  { apply list_elem_of_fmap. exists policy. split; [done|]. by apply list_elem_of_filter. }
  unfold gen_resources_with_potential_confused_deputies.
  rewrite (result_bind_Ok (emit _) _ tt) by done.
  rewrite (result_bind_Ok _ _ _ Hl).
  rewrite bool_decide_true.
  2:{ destruct (confused_deputy_entry <$> _); [by apply elem_of_nil in Hentry|simpl; lia]. }
  eexists. split; [reflexivity|]. simpl.
  split; apply occurs_in_app_r;
    (eapply occurs_in_join; [apply list_elem_of_fmap; eexists; split; [reflexivity|exact Hentry]|]);
    simpl.
  - do 3 apply occurs_in_app_r. apply occurs_in_app_l, occurs_in_refl.
  - do 5 apply occurs_in_app_r. apply occurs_in_refl.
Qed.

(** The aggregate never enters the confused-deputy rule. *)
Lemma gen_all_findings_skips_confused_deputy fuel graph :
  Invoke "gen_resources_with_potential_confused_deputies" ∉ trace (gen_all_findings fuel graph).
Proof.
  intros H.
  pose proof (gen_all_findings_trace fuel graph) as Ht.
  eapply Forall_forall in Ht; [|exact H]. simpl in Ht.
  revert Ht. apply (bool_decide_unpack _). vm_compute. exact I.
Qed.

End ConfusedDeputy.

(** C1 (what the code does).  The bucket policy grants [s3:GetObject] to the
    serverless repository under a [aws:SourceAccount] condition, the
    evaluation under a foreign source account answers [NEUTRAL], and the rule
    still returns a finding that names the bucket and the action. *)
Theorem confused_deputy_flags_scoped_policy :
  @resource_policy_authorization quiet_querying
     "serverlessrepo.amazonaws.com" "111111111111"
     (Some (policy_doc scoped_bucket_policy)) "s3:GetObject"
     (policy_arn scoped_bucket_policy) {[ "aws:SourceAccount" := "000000000000" ]}
    = NEUTRAL ∧
  ∃ f, result (@gen_resources_with_potential_confused_deputies
                 quiet_querying bucket_graph) = Ok [f] ∧
       title f = "Resources With A Potential Confused-Deputy Risk" ∧
       occurs_in "arn:aws:s3:::artifacts" (description f) ∧
       occurs_in "s3:GetObject" (description f).
Proof.
  split; [reflexivity|].
  destruct (@confused_deputy_flags_every_s3_policy quiet_querying
              bucket_graph "111111111111" scoped_bucket_policy)
    as (f & Hf & Harn & Haction); [reflexivity|set_solver|reflexivity|].
  exists f. split; [done|]. split; [|done].
  revert Hf. unfold gen_resources_with_potential_confused_deputies.
  rewrite (result_bind_Ok (emit _) _ tt) by done.
  destruct (confused_deputy_affected_policies bucket_graph) as [t [l| |]]; simpl; try done.
  case_bool_decide; simpl; [|done]. by intros [= <-].
Qed.

(** C2 (what the code does).  With a resource-policy evaluation that answers
    [SERVICE_MATCH], the confused-deputy rule returns a finding for the
    bucket graph, and [gen_all_findings] on the same graph returns no finding
    at all: the aggregate does not run that rule. *)
Theorem gen_all_findings_omits_confused_deputy :
  ∃ f, result (@gen_resources_with_potential_confused_deputies
                 matching_querying bucket_graph) = Ok [f] ∧
       result (@gen_all_findings matching_querying 1 bucket_graph) = Ok [] ∧
       (Invoke "gen_resources_with_potential_confused_deputies" ∉
          trace (@gen_all_findings matching_querying 1 bucket_graph)).
Proof.
  destruct (@confused_deputy_flags_every_s3_policy matching_querying
              bucket_graph "111111111111" scoped_bucket_policy)
    as (f & Hf & _); [reflexivity|set_solver|reflexivity|].
  exists f. split; [done|]. split; [vm_compute; reflexivity|].
  apply gen_all_findings_skips_confused_deputy.
Qed.

(** *** Report assembly *)

Lemma trace_bind_emit {B} (e : Event) (k : unit → M B) :
  trace (bind (emit e) k) = e :: trace (k tt).
Proof. unfold bind, emit. simpl. by destruct (k tt). Qed.

Lemma trace_bind_prefix {A B} (m : M A) (k : A → M B) (e : Event) :
  e ∈ trace m → e ∈ trace (bind m k).
Proof.
  destruct m as [t [a| |]]; simpl; try done.
  destruct (k a). simpl. set_solver.
Qed.

Section ReportAssembly.

Context `{Q : Querying}.

Lemma gen_all_findings_enters_first_rule fuel graph :
  Invoke "gen_privesc_findings" ∈ trace (gen_all_findings fuel graph).
Proof.
  unfold gen_all_findings. apply trace_bind_prefix.
  unfold gen_privesc_findings. rewrite trace_bind_emit. left.
Qed.

(** C4 (as amended).  When the metadata of the graph has no account
    identifier, [gen_report] produces no report.  It runs [gen_all_findings]
    first, so the rules are entered, and once they have returned it raises
    [KeyError] for the missing key. *)
Theorem gen_report_without_account_id (fuel : nat) (now : Z) (version : string)
    (graph : Graph) :
  metadata graph !! "account_id" = None →
  (∀ report, result (gen_report fuel now version graph) ≠ Ok report) ∧
  trace (gen_report fuel now version graph) = trace (gen_all_findings fuel graph) ∧
  Invoke "gen_privesc_findings" ∈ trace (gen_report fuel now version graph) ∧
  (∀ fs, result (gen_all_findings fuel graph) = Ok fs →
         result (gen_report fuel now version graph) = Raise (KeyError "account_id")).
Proof.
  intros Hmeta.
  assert (Htrace : trace (gen_report fuel now version graph)
                   = trace (gen_all_findings fuel graph)).
  { unfold gen_report, metadata_get. rewrite Hmeta.
    destruct (gen_all_findings fuel graph) as [t [fs| |]]; simpl; [|done..].
    by rewrite app_nil_r. }
  split; [|split; [done|split]].
  - intros report. unfold gen_report, metadata_get. rewrite Hmeta.
    by destruct (gen_all_findings fuel graph) as [t [fs| |]].
  - rewrite Htrace. apply gen_all_findings_enters_first_rule.
  - intros fs Hfs. unfold gen_report, metadata_get. rewrite Hmeta.
    by rewrite (result_bind_Ok _ _ _ Hfs).
Qed.

End ReportAssembly.

Lemma gen_report_without_account_id_witness :
  metadata anonymous_graph !! "account_id" = None ∧
  result (@gen_report quiet_querying 5 0 "1.1.5" anonymous_graph)
    = Raise (KeyError "account_id").
Proof.
  split; [reflexivity|].
  apply (@gen_report_without_account_id quiet_querying 5 0 "1.1.5"
           anonymous_graph eq_refl) with (fs := []).
  vm_compute. reflexivity.
Defined.

(** C4 (as stated) fails: on a graph without account identifier the run of
    [gen_report] enters every rule of the catalog before it raises. *)
Lemma gen_report_runs_rules_before_raising :
  metadata anonymous_graph !! "account_id" = None ∧
  result (@gen_report quiet_querying 5 0 "1.1.5" anonymous_graph)
    = Raise (KeyError "account_id") ∧
  Forall (λ rule, Invoke rule ∈
            trace (@gen_report quiet_querying 5 0 "1.1.5" anonymous_graph))
         rule_names ∧
  Call_can_privesc role_A ∈
    trace (@gen_report quiet_querying 5 0 "1.1.5" anonymous_graph).
Proof.
  split; [reflexivity|]. split; [vm_compute; reflexivity|].
  split; [|apply (bool_decide_unpack _); vm_compute; exact I].
  repeat constructor; apply (bool_decide_unpack _); vm_compute; exact I.
Qed.

(** ** Runs on concrete graphs *)

Lemma mfa_actions_scenario_witness :
  ∃ f, result (@gen_mfa_actions_findings bob_querying bob_graph) = Ok [f] ∧
       severity f = "Medium" ∧
       occurs_in (@searchable_name bob_querying user_Bob) (description f).
Proof.
  apply (@mfa_actions_scenario bob_querying bob_graph user_Bob).
  - simpl. left.
  - reflexivity.
  - reflexivity.
  - reflexivity.
  - vm_compute. reflexivity.
Defined.

Section SsmFinding.

Context `{Q : Querying}.

Lemma gen_os_lpe_finding_names graph l n :
  result (os_lpe_affected_roles graph) = Ok l → n ∈ l →
  ∃ f, result (gen_os_lpe_finding graph) = Ok [f] ∧
       occurs_in (searchable_name n) (description f).
Proof.
  intros Hl Hin. unfold gen_os_lpe_finding.
  rewrite (result_bind_Ok (emit _) _ tt) by done.
  rewrite (result_bind_Ok _ _ _ Hl).
  rewrite bool_decide_true by (destruct l; [by apply elem_of_nil in Hin|simpl; lia]).
  eexists. split; [reflexivity|].
  simpl. apply occurs_in_app_r. by apply bullet_lines_names.
Qed.

End SsmFinding.

(** C6 (as stated) fails: the role Web is not administrative, it has an
    instance profile and may open SSM sessions, and the SSM rule reports
    it. *)
Lemma os_lpe_flags_non_admin_role :
  is_admin role_Web = false ∧
  result (@os_lpe_affected_roles web_querying web_graph) = Ok [role_Web] ∧
  ∃ f, result (@gen_os_lpe_finding web_querying web_graph) = Ok [f] ∧
       occurs_in (@searchable_name web_querying role_Web) (description f).
Proof.
  split; [reflexivity|].
  assert (H : result (@os_lpe_affected_roles web_querying web_graph) = Ok [role_Web])
    by (vm_compute; reflexivity).
  split; [exact H|].
  apply (@gen_os_lpe_finding_names web_querying web_graph [role_Web] role_Web H). left.
Qed.

Lemma os_lpe_affected_roles_sound_witness :
  result (@os_lpe_affected_roles web_querying web_graph) = Ok [role_Web] ∧
  str_in ":role/" (arn role_Web) = true ∧
  @local_check_authorization web_querying role_Web "ssmmessages:*" "*" ∅ = true.
Proof.
  assert (H : result (@os_lpe_affected_roles web_querying web_graph) = Ok [role_Web])
    by (vm_compute; reflexivity).
  split; [exact H|].
  pose proof (@os_lpe_affected_roles_sound web_querying web_graph [role_Web] role_Web H
                (list_elem_of_here _ _)) as (_ & Hrole & _ & Hssm & _).
  exact (conj Hrole Hssm).
Defined.

(** The search from O in the graph with a self loop on A returns a list in
    which A stands twice. *)
Lemma find_cycle_self_loop_repeats_node :
  @_find_cycle quiet_querying 4 self_loop_graph role_O
    = Ok (Some [role_O; role_A; role_A; role_C]).
Proof. vm_compute. reflexivity. Qed.

(** * Further properties *)

(** ** The list the cycle search returns *)

Section CycleResult.

Context `{Q : Querying}.

Lemma stack_inv_pop graph origin root stack top rest :
  stack_inv graph origin root stack → origin ∉ successors graph root →
  pop stack = Some (top, rest) → stack_inv graph origin top rest.
Proof.
  intros [Hhead Hclean] Hroot ->%pop_Some. split.
  - destruct Hhead as [Hnil|[r Hr]]; [by destruct rest|].
    destruct rest as [|y rest]; [by left|right]. injection Hr as -> _. eauto.
  - right. destruct Hclean as [(front & Hf & Hc)|[_ Hc]].
    + apply app_inj_tail in Hf as [-> ->]. auto.
    + split; [apply Hc|intros x Hx; apply Hc]; set_solver.
Qed.

Lemma stack_inv_push graph origin root stack c :
  stack_inv graph origin root stack → (0 < length stack)%nat →
  origin ∉ successors graph root → stack_inv graph origin c (stack ++ [c]).
Proof.
  intros [Hhead Hclean] Hlen Hroot. split.
  - right. destruct Hhead as [->|[r ->]]; [simpl in Hlen; lia|]. by eexists.
  - left. exists stack. split; [done|].
    destruct Hclean as [(front & -> & Hc)|[_ Hc]]; [|done].
    intros x [?|Hx%list_elem_of_singleton]%elem_of_app; [auto|by subst].
Qed.

Lemma find_cycle_loop_shape graph origin fuel :
  ∀ root stack explored l,
    stack_inv graph origin root stack →
    find_cycle_loop fuel graph origin root stack explored = Ok (Some l) →
    (∃ rest, l = origin :: rest) ∧
    (∃ x, last l = Some x ∧ origin ∈ successors graph x).
Proof.
  induction fuel as [|fuel IH]; intros root stack explored l Hinv; [done|].
  simpl. fold (successors graph root).
  case_bool_decide as Hlen; [|done].
  case_bool_decide as Hout.
  { destruct (pop stack) as [[top rest]|] eqn:Hp; [|done].
    apply IH. eapply stack_inv_pop; [done| |done].
    destruct (successors graph root); [set_solver|done]. }
  case_bool_decide as Ho.
  { intros [= <-]. destruct Hinv as [Hhead Hclean]. split.
    - destruct Hhead as [->|?]; [simpl in Hlen; lia|done].
    - destruct Hclean as [(front & -> & _)|[Hno _]]; [|done].
      exists root. by rewrite last_snoc. }
  destruct (filter _ _) as [|c cs].
  - destruct (pop stack) as [[top rest]|] eqn:Hp; [|done].
    apply IH. by eapply stack_inv_pop.
  - apply IH. by eapply stack_inv_push.
Qed.

(** X1.  A list returned by the cycle search starts with the origin, and its
    last node has an edge to the origin. *)
Theorem find_cycle_result_ends (fuel : nat) (graph : Graph) (origin : Node)
    (l : list Node) :
  _find_cycle fuel graph origin = Ok (Some l) →
  (∃ rest, l = origin :: rest) ∧
  (∃ x e, last l = Some x ∧ e ∈ get_outbound_edges x graph ∧ destination e = origin).
Proof.
  intros H. apply find_cycle_loop_shape in H as [Hhead (x & Hlast & Hx)].
  - split; [done|]. apply list_elem_of_fmap in Hx as (e & -> & He). eauto.
  - split; [right; by exists []|]. left. exists []. split; [done|].
    intros x Hx. by apply elem_of_nil in Hx.
Qed.

Lemma distinct_inv_pop root stack explored top rest :
  distinct_inv root stack explored → pop stack = Some (top, rest) →
  distinct_inv top rest explored.
Proof.
  intros [Hnd Hin] ->%pop_Some.
  apply NoDup_app in Hnd as (Hnd & Hdisj & _). split; [done|].
  intros x Hx. destruct (Hin x) as [?|[-> Hlast]]; [set_solver|by left|].
  rewrite last_snoc in Hlast. injection Hlast as ->.
  exfalso. apply (Hdisj root Hx). left.
Qed.

Lemma distinct_inv_push root stack explored c :
  distinct_inv root stack explored → c ∉ explored → c ≠ root →
  distinct_inv c (stack ++ [c]) (explored ++ [root]).
Proof.
  intros [Hnd Hin] Hc Hne. split.
  - apply NoDup_app. split; [done|]. split; [|apply NoDup_singleton].
    intros x Hx ->%list_elem_of_singleton.
    destruct (Hin _ Hx) as [?|[? _]]; done.
  - intros x [Hx|Hx%list_elem_of_singleton]%elem_of_app.
    + left. destruct (Hin _ Hx) as [?|[-> _]]; set_solver.
    + subst x. right. by rewrite last_snoc.
Qed.

Lemma find_cycle_loop_distinct graph origin fuel :
  (∀ n e, e ∈ get_outbound_edges n graph → destination e ≠ n) →
  ∀ root stack explored l,
    distinct_inv root stack explored →
    find_cycle_loop fuel graph origin root stack explored = Ok (Some l) →
    NoDup l.
Proof.
  intros Hloop.
  induction fuel as [|fuel IH]; intros root stack explored l Hinv; [done|].
  simpl. fold (successors graph root).
  case_bool_decide as Hlen; [|done].
  case_bool_decide as Hout.
  { destruct (pop stack) as [[top rest]|] eqn:Hp; [|done].
    apply IH. by eapply distinct_inv_pop. }
  case_bool_decide as Ho.
  { intros [= <-]. apply Hinv. }
  destruct (filter _ _) as [|c cs] eqn:Hcand.
  - destruct (pop stack) as [[top rest]|] eqn:Hp; [|done].
    apply IH. by eapply distinct_inv_pop.
  - assert (Hc : c ∈ filter (λ x, x ∉ explored) (successors graph root))
      by (rewrite Hcand; left).
    apply list_elem_of_filter in Hc as [Hce Hcs].
    apply list_elem_of_fmap in Hcs as (e & -> & He).
    apply IH. apply distinct_inv_push; [done|done|by eapply Hloop].
Qed.

(** X2.  On a graph in which no node has an edge to itself, a list returned
    by the cycle search holds no node twice. *)
Theorem find_cycle_result_distinct (fuel : nat) (graph : Graph) (origin : Node)
    (l : list Node) :
  (∀ n e, e ∈ get_outbound_edges n graph → destination e ≠ n) →
  _find_cycle fuel graph origin = Ok (Some l) → NoDup l.
Proof.
  intros Hloop H. eapply find_cycle_loop_distinct in H; [done|done|].
  split; [apply NoDup_singleton|].
  intros x ->%list_elem_of_singleton. by right.
Qed.

(** The search never raises: its [pop] is guarded by the loop condition. *)
Lemma find_cycle_loop_no_raise graph origin fuel :
  ∀ root stack explored e,
    find_cycle_loop fuel graph origin root stack explored ≠ Raise e.
Proof.
  induction fuel as [|fuel IH]; intros root stack explored e; [done|].
  simpl. case_bool_decide as Hlen; [|done].
  assert (Hsome : ∃ top rest, pop stack = Some (top, rest)).
  { destruct (pop stack) as [[top rest]|] eqn:E; [eauto|].
    apply pop_None in E as ->. simpl in Hlen. lia. }
  destruct Hsome as (top & rest & ->).
  repeat case_bool_decide; try done; try apply IH.
  destruct (filter _ _); apply IH.
Qed.

End CycleResult.

(** ** Loops that select and loops that fail *)

Lemma for_each_select {A} (cond : A → bool) (l : list A) :
  ∀ acc, for_each l (λ acc x, if cond x then ret (acc ++ [x]) else ret acc) acc
         = ret (acc ++ filter (λ x, cond x = true) l).
Proof.
  induction l as [|x l IH]; intros acc; simpl.
  - by rewrite app_nil_r.
  - destruct (cond x) eqn:Hc.
    + rewrite filter_cons_True by done. unfold bind, ret at 1.
      rewrite IH. unfold ret. simpl. by rewrite <- app_assoc.
    + rewrite filter_cons_False by congruence. unfold bind, ret at 1.
      rewrite IH. done.
Qed.

Lemma for_each_raises {A S} (e : Exn) (l : list A) (body : S → A → M S) (bad : A) :
  bad ∈ l → (∀ s, result (body s bad) = Raise e) →
  (∀ s x, x ∈ l → (∃ s', result (body s x) = Ok s') ∨ result (body s x) = Raise e) →
  ∀ s, result (for_each l body s) = Raise e.
Proof.
  induction l as [|x l IH]; intros Hin Hbad Hall s; [by apply elem_of_nil in Hin|].
  simpl. destruct (Hall s x) as [[s' Hs']|Hr]; [left| |].
  - rewrite (result_bind_Ok _ _ _ Hs').
    apply elem_of_cons in Hin as [<-|Hin]; [rewrite Hbad in Hs'; done|].
    apply IH; [done|done|]. intros s0 y Hy. apply Hall. by right.
  - destruct (body s x) as [t o]. simpl in *. by subst o.
Qed.

Lemma filter_nil_iff {A} (P : A → Prop) `{!∀ x, Decision (P x)} (l : list A) :
  filter P l = [] ↔ ∀ x, x ∈ l → ¬ P x.
Proof.
  split.
  - intros Hnil x Hx HP. assert (Hf : x ∈ filter P l) by by apply list_elem_of_filter.
    rewrite Hnil in Hf. by eapply elem_of_nil.
  - intros Hall. destruct (filter P l) as [|y ys] eqn:E; [done|].
    assert (Hy : y ∈ filter P l) by (rewrite E; left).
    apply list_elem_of_filter in Hy as [HP Hy]. by destruct (Hall y Hy).
Qed.

Lemma length_pos_nonnil {A} (l : list A) : (0 < length l)%nat ↔ l ≠ [].
Proof. destruct l; simpl; split; (done || lia). Qed.

Section SelectionRules.

Context `{Q : Querying}.

(** X3.  The rule on administrative users without MFA asks nothing of the
    simulator and raises nothing of its own.  It returns no finding exactly
    when no node of the graph is an administrative user without an MFA
    device, and else one finding of severity Medium whose description names
    each of them. *)
Theorem gen_admin_users_without_mfa_finding_spec (graph : Graph) :
  ∃ r, gen_admin_users_without_mfa_finding graph
         = ([Invoke "gen_admin_users_without_mfa_finding"], Ok r) ∧
       (r = [] ↔ ∀ n, n ∈ nodes graph → admin_user_without_mfa n = false) ∧
       (∀ n, n ∈ nodes graph → admin_user_without_mfa n = true →
          ∃ f, r = [f] ∧ severity f = "Medium" ∧
               occurs_in ("* " +:+ searchable_name n) (description f)).
Proof.
  unfold gen_admin_users_without_mfa_finding.
  pose proof (for_each_select admin_user_without_mfa (nodes graph) []) as Hsel.
  unfold admin_user_without_mfa at 1 in Hsel. rewrite Hsel. clear Hsel. simpl.
  set (sel := filter (λ x, admin_user_without_mfa x = true) (nodes graph)).
  assert (Hempty : sel = [] ↔ ∀ n, n ∈ nodes graph → admin_user_without_mfa n = false).
  { unfold sel. rewrite filter_nil_iff. apply forall_proper. intros n.
    destruct (admin_user_without_mfa n); naive_solver. }
  case_bool_decide as Hlen.
  - apply length_pos_nonnil in Hlen.
    eexists. split; [reflexivity|]. split.
    + split; [done|]. intros H. by apply (proj2 Hempty) in H.
    + intros n Hn Hc. eexists. split; [reflexivity|]. split; [reflexivity|].
      simpl. apply occurs_in_app_r.
      apply (occurs_in_join _ _ _ ("* " +:+ searchable_name n)); [|apply occurs_in_refl].
      apply list_elem_of_fmap. exists n. split; [done|].
      apply list_elem_of_filter. done.
  - assert (sel = []) as Hnil by (destruct sel; [done|simpl in Hlen; lia]).
    exists []. split; [reflexivity|]. split; [by rewrite <- Hempty|].
    intros n Hn Hc. rewrite (proj1 Hempty Hnil n Hn) in Hc. done.
Qed.

Lemma service_role_scan (service : string) (l : list Node) :
  ∀ acc,
    result (for_each l (λ affected_roles node,
              if str_in ":role/" (arn node) && is_admin node then
                r <- call_resource_policy_authorization
                       service (get_account_id (arn node)) (trust_policy node)
                       "sts:AssumeRole" (arn node) ∅ ;;
                if bool_decide (r = SERVICE_MATCH) then ret (affected_roles ++ [node])
                else ret affected_roles
              else ret affected_roles) acc)
    = Ok (acc ++ filter (λ n, admin_role_for_service service n = true) l).
Proof.
  induction l as [|x l IH]; intros acc; cbn [for_each].
  - simpl. by rewrite app_nil_r.
  - destruct (admin_role_for_service service x) eqn:Hsel.
    + rewrite filter_cons_True by done.
      unfold admin_role_for_service in Hsel.
      apply andb_prop in Hsel as [Hc Hm]. apply bool_decide_eq_true in Hm.
      rewrite Hc. erewrite (result_bind_Ok _ _ (acc ++ [x])).
      * rewrite IH. by rewrite <- app_assoc.
      * unfold call_resource_policy_authorization, bind, emit, ret. simpl.
        by rewrite bool_decide_true.
    + rewrite filter_cons_False by congruence.
      unfold admin_role_for_service in Hsel.
      erewrite (result_bind_Ok _ _ acc); [apply IH|].
      destruct (str_in ":role/" (arn x) && is_admin x); [|done].
      simpl in Hsel. apply bool_decide_eq_false in Hsel.
      unfold call_resource_policy_authorization, bind, emit, ret. simpl.
      by rewrite bool_decide_false.
Qed.

Lemma service_role_nil (service : string) (graph : Graph) :
  filter (λ n, admin_role_for_service service n = true) (nodes graph) = [] ↔
  ∀ n, n ∈ nodes graph → admin_role_for_service service n = false.
Proof.
  rewrite filter_nil_iff. apply forall_proper. intros n.
  destruct (admin_role_for_service service n); naive_solver.
Qed.

(** X4.  The rule on roles available to Lambda functions raises nothing of
    its own: when its evaluations of trust policies return, it returns.  It
    returns no finding exactly when no node is an administrative role whose
    trust policy evaluates to [SERVICE_MATCH] for the Lambda service, and
    else one finding of severity Medium whose description names each of
    them. *)
Theorem gen_overprivileged_function_findings_spec (graph : Graph) :
  ∃ r, result (gen_overprivileged_function_findings graph) = Ok r ∧
       (r = [] ↔ ∀ n, n ∈ nodes graph →
                   admin_role_for_service "lambda.amazonaws.com" n = false) ∧
       (∀ n, n ∈ nodes graph → admin_role_for_service "lambda.amazonaws.com" n = true →
          ∃ f, r = [f] ∧ severity f = "Medium" ∧
               occurs_in (searchable_name n) (description f)).
Proof.
  unfold gen_overprivileged_function_findings.
  rewrite (result_bind_Ok (emit _) _ tt) by done.
  rewrite (result_bind_Ok _ _ _ (service_role_scan "lambda.amazonaws.com" (nodes graph) [])).
  rewrite app_nil_l.
  pose proof (service_role_nil "lambda.amazonaws.com" graph) as Hempty.
  set (sel := filter _ (nodes graph)) in *.
  case_bool_decide as Hlen.
  - apply length_pos_nonnil in Hlen.
    eexists. split; [reflexivity|]. split.
    + split; [done|]. intros H. by apply (proj2 Hempty) in H.
    + intros n Hn Hc. eexists. split; [reflexivity|]. split; [reflexivity|].
      simpl. apply occurs_in_app_r, bullet_lines_names.
      by apply list_elem_of_filter.
  - assert (sel = []) as Hnil by (destruct sel; [done|simpl in Hlen; lia]).
    exists []. split; [reflexivity|]. split; [by rewrite <- Hempty|].
    intros n Hn Hc. rewrite (proj1 Hempty Hnil n Hn) in Hc. done.
Qed.

(** X5.  The rule on roles available to CloudFormation stacks raises nothing
    of its own: when its evaluations of trust policies return, it returns.
    It returns no finding exactly when no node is an administrative role
    whose trust policy evaluates to [SERVICE_MATCH] for the CloudFormation
    service, and else one finding of severity Low whose description names
    each of them. *)
Theorem gen_overprivileged_stack_findings_spec (graph : Graph) :
  ∃ r, result (gen_overprivileged_stack_findings graph) = Ok r ∧
       (r = [] ↔ ∀ n, n ∈ nodes graph →
                   admin_role_for_service "cloudformation.amazonaws.com" n = false) ∧
       (∀ n, n ∈ nodes graph →
          admin_role_for_service "cloudformation.amazonaws.com" n = true →
          ∃ f, r = [f] ∧ severity f = "Low" ∧
               occurs_in (searchable_name n) (description f)).
Proof.
  unfold gen_overprivileged_stack_findings.
  rewrite (result_bind_Ok (emit _) _ tt) by done.
  rewrite (result_bind_Ok _ _ _
             (service_role_scan "cloudformation.amazonaws.com" (nodes graph) [])).
  rewrite app_nil_l.
  pose proof (service_role_nil "cloudformation.amazonaws.com" graph) as Hempty.
  set (sel := filter _ (nodes graph)) in *.
  case_bool_decide as Hlen.
  - apply length_pos_nonnil in Hlen.
    eexists. split; [reflexivity|]. split.
    + split; [done|]. intros H. by apply (proj2 Hempty) in H.
    + intros n Hn Hc. eexists. split; [reflexivity|]. split; [reflexivity|].
      simpl. apply occurs_in_app_r, bullet_lines_names.
      by apply list_elem_of_filter.
  - assert (sel = []) as Hnil by (destruct sel; [done|simpl in Hlen; lia]).
    exists []. split; [reflexivity|]. split; [by rewrite <- Hempty|].
    intros n Hn Hc. rewrite (proj1 Hempty Hnil n Hn) in Hc. done.
Qed.

End SelectionRules.

(** ** Where a rule raises and where it does not *)

Section RuleErrors.

Context `{Q : Querying}.

(** X6.  When the graph holds an administrative role whose instance profile
    is [None], the instance-profile rule raises [TypeError]: it takes the
    length of the attribute without a test for [None]. *)
Theorem gen_overprivileged_instance_profile_findings_none (graph : Graph) (node : Node) :
  node ∈ nodes graph →
  str_in ":role/" (arn node) = true → is_admin node = true →
  instance_profile node = None →
  result (gen_overprivileged_instance_profile_findings graph) = Raise TypeError.
Proof.
  intros Hin Hrole Hadmin Hnone.
  unfold gen_overprivileged_instance_profile_findings.
  rewrite (result_bind_Ok (emit _) _ tt) by done.
  match goal with
  | |- result (bind ?m _) = _ => assert (Hscan : result m = Raise TypeError)
  end.
  { apply (for_each_raises TypeError _ _ node); [done| |].
    - intros s. by rewrite Hrole, Hadmin, Hnone.
    - intros s x _. destruct (_ && _); [|left; by eexists].
      destruct (instance_profile x); [|by right].
      left. case_bool_decide; by eexists. }
  destruct (for_each _ _ _) as [t o]. simpl in *. by subst o.
Qed.

(** X7.  The SSM rule raises nothing of its own: when its authorization
    checks return, it returns at most one finding on every
    graph, nodes whose instance profile is [None] included. *)
Theorem gen_os_lpe_finding_total (graph : Graph) :
  ∃ r, result (gen_os_lpe_finding graph) = Ok r ∧ (length r ≤ 1)%nat.
Proof.
  assert (Hscan : ∃ l, result (os_lpe_affected_roles graph) = Ok l).
  { apply for_each_result_total. intros s x _. cbv beta.
    destruct (str_in _ _); [|by eexists].
    destruct (instance_profile x); [|by eexists].
    case_bool_decide; [|by eexists].
    unfold call_local_check_authorization, bind, emit, ret. simpl.
    repeat (destruct (local_check_authorization _ _ _ _); simpl); by eexists. }
  destruct Hscan as [l Hl]. unfold gen_os_lpe_finding.
  rewrite (result_bind_Ok (emit _) _ tt) by done.
  rewrite (result_bind_Ok _ _ _ Hl).
  case_bool_decide; eexists; (split; [reflexivity|simpl; lia]).
Qed.

Lemma can_call_without_mfa_run (node : Node) (actions : list string) :
  _can_call_without_mfa node actions =
    (Call_local_check_authorization_handling_mfa node <$>
       up_to_first (callable_without_mfa node) actions,
     Ok (existsb (callable_without_mfa node) actions)).
Proof.
  induction actions as [|a actions IH]; cbn [_can_call_without_mfa]; [done|].
  unfold call_local_check_authorization_handling_mfa, bind, emit, ret. simpl.
  unfold callable_without_mfa at 1 3.
  destruct (local_check_authorization_handling_mfa node a "*" ∅) as [auth needmfa].
  destruct (auth && negb needmfa); simpl; [done|].
  by rewrite IH.
Qed.

(** X8.  [_can_call_without_mfa] returns whether some action of the list can
    be called without MFA, and it asks the simulator about the actions in
    order up to the first such action and about none after it. *)
Theorem can_call_without_mfa_spec (node : Node) (actions : list string) :
  _can_call_without_mfa node actions =
    (Call_local_check_authorization_handling_mfa node <$>
       up_to_first (callable_without_mfa node) actions,
     Ok (existsb (callable_without_mfa node) actions)).
Proof. apply can_call_without_mfa_run. Qed.

End RuleErrors.


Lemma for_each_append_occurs {A} (g : A → string) (l : list A)
    (body : string → A → M string) :
  (∀ s x, x ∈ l → result (body s x) = Ok (s +:+ g x)) →
  ∀ s, ∃ out, result (for_each l body s) = Ok out ∧
              occurs_in s out ∧ ∀ x, x ∈ l → occurs_in (g x) out.
Proof.
  induction l as [|y l IH]; intros Hbody s; simpl.
  - exists s. split; [done|]. split; [apply occurs_in_refl|].
    intros x Hx. by apply elem_of_nil in Hx.
  - rewrite (result_bind_Ok _ _ _ (Hbody s y (list_elem_of_here _ _))).
    destruct (IH (λ s x Hx, Hbody s x (list_elem_of_further _ _ _ Hx)) (s +:+ g y))
      as (out & Hout & Hs & Hall).
    exists out. split; [done|].
    destruct Hs as (pre & post & ->). split.
    + exists pre, (g y +:+ post). by rewrite !str_app_assoc.
    + intros x [->|Hx]%elem_of_cons; [|auto].
      exists (pre +:+ s), post. by rewrite !str_app_assoc.
Qed.

Lemma fold_left_append_acc {A} (g : A → string) (l : list A) :
  ∀ a b, fold_left (λ body x, body +:+ g x) l (a +:+ b)
         = a +:+ fold_left (λ body x, body +:+ g x) l b.
Proof.
  induction l as [|x l IH]; intros a b; simpl; [done|].
  by rewrite <- IH, str_app_assoc.
Qed.

Section EscalationRule.

Context `{Q : Querying}.


Lemma privesc_node_path_list_total graph :
  ∃ l, result (privesc_node_path_list graph) = Ok l.
Proof.
  apply for_each_result_total. intros s x _. cbv beta.
  destruct (is_admin x); [by eexists|].
  unfold call_can_privesc, bind, emit, ret. simpl.
  destruct (can_privesc graph x) as [[] el]; by eexists.
Qed.

Lemma privesc_node_path_list_complete graph l node edge_list :
  result (privesc_node_path_list graph) = Ok l →
  node ∈ nodes graph → is_admin node = false →
  can_privesc graph node = (true, edge_list) →
  (node, edge_list) ∈ l.
Proof.
  intros Hl Hin Hadm Hcp. revert Hin.
  eapply (for_each_result_ind (λ pre s, node ∈ pre → (node, edge_list) ∈ s));
    [| |exact Hl].
  { intros H. by apply elem_of_nil in H. }
  intros pre x suf s s' _ IH Hbody [Hpre|Hx%list_elem_of_singleton]%elem_of_app;
    cbv beta in Hbody.
  - specialize (IH Hpre). destruct (is_admin x); [by injection Hbody as <-|].
    unfold call_can_privesc, bind, emit, ret in Hbody. simpl in Hbody.
    destruct (can_privesc graph x) as [[] el]; simpl in Hbody;
      injection Hbody as <-; set_solver.
  - subst x. rewrite Hadm in Hbody.
    unfold call_can_privesc, bind, emit, ret in Hbody. simpl in Hbody.
    rewrite Hcp in Hbody. simpl in Hbody. injection Hbody as <-. set_solver.
Qed.

(** X10.  When [can_privesc] answers true with an empty list of edges for a
    node of the graph that is not administrative, the escalation rule raises
    [IndexError]: it takes the last edge of the list. *)
Theorem gen_privesc_findings_empty_path (graph : Graph) (node : Node) :
  node ∈ nodes graph → is_admin node = false →
  can_privesc graph node = (true, []) →
  result (gen_privesc_findings graph) = Raise IndexError.
Proof.
  intros Hin Hadm Hcp.
  destruct (privesc_node_path_list_total graph) as [l Hl].
  pose proof (privesc_node_path_list_complete _ _ _ _ Hl Hin Hadm Hcp) as Hel.
  unfold gen_privesc_findings.
  rewrite (result_bind_Ok (emit _) _ tt) by done.
  rewrite (result_bind_Ok _ _ _ Hl).
  rewrite bool_decide_true by (apply length_pos_nonnil; intros ->; by apply elem_of_nil in Hel).
  match goal with
  | |- result (bind ?m _) = _ => assert (Hdesc : result m = Raise IndexError)
  end.
  { apply (for_each_raises IndexError _ _ (node, [])); [done|done|].
    intros s [n el] _. cbv beta iota zeta. destruct (last el) eqn:E; [left; by eexists|by right]. }
  destruct (for_each _ _ _) as [t o]. simpl in *. by subst o.
Qed.

(** X11.  When every path that [can_privesc] reports for a non-administrative
    node of the graph has an edge, the escalation rule returns normally; and
    for each such node with a reported path it returns exactly one finding,
    of severity High, whose description holds the line of that node: its
    name, the name of the destination of the last edge, and the description
    of every edge of the path. *)
Theorem gen_privesc_findings_reports (graph : Graph) (node : Node)
    (edge_list : list Edge) (e : Edge) :
  (∀ n el, n ∈ nodes graph → is_admin n = false →
           can_privesc graph n = (true, el) → el ≠ []) →
  node ∈ nodes graph → is_admin node = false →
  can_privesc graph node = (true, edge_list) → last edge_list = Some e →
  ∃ f, result (gen_privesc_findings graph) = Ok [f] ∧ severity f = "High" ∧
       occurs_in (privesc_lines node edge_list (destination e)) (description f).
Proof.
  intros Hpaths Hin Hadm Hcp Hlast.
  destruct (privesc_node_path_list_total graph) as [l Hl].
  pose proof (privesc_node_path_list_complete _ _ _ _ Hl Hin Hadm Hcp) as Hel.
  pose proof (privesc_node_path_list_sound _ _ Hl) as Hsound.
  unfold gen_privesc_findings.
  rewrite (result_bind_Ok (emit _) _ tt) by done.
  rewrite (result_bind_Ok _ _ _ Hl).
  rewrite bool_decide_true by (apply length_pos_nonnil; intros ->; by apply elem_of_nil in Hel).
  set (g := λ item : Node * list Edge,
         match last item.2 with
         | Some e' => privesc_lines item.1 item.2 (destination e')
         | None => ""
         end).
  match goal with
  | |- ∃ f, result (bind (for_each l ?body "") _) = _ ∧ _ =>
    destruct (for_each_append_occurs g l body) with (s := "")
      as (out & Hout & _ & Hall)
  end.
  { intros s [n el] Hn. destruct (Hsound _ _ Hn) as (Hnin & Hnadm & Hncp).
    pose proof (Hpaths _ _ Hnin Hnadm Hncp) as Hne.
    unfold g. simpl. destruct (last el) as [e'|] eqn:E.
    - simpl. unfold privesc_lines.
      rewrite <- !str_app_assoc, <- fold_left_append_acc, <- !str_app_assoc. done.
    - apply last_None in E. done. }
  rewrite (result_bind_Ok _ _ _ Hout).
  eexists. split; [reflexivity|]. split; [reflexivity|]. simpl.
  apply occurs_in_app_r. specialize (Hall _ Hel). unfold g in Hall. simpl in Hall.
  by rewrite Hlast in Hall.
Qed.

End EscalationRule.

(** ** The circular-access rule *)

Section CircularRule.

Context `{Q : Querying}.

Lemma find_cycle_nonempty fuel graph origin l :
  _find_cycle fuel graph origin = Ok (Some l) → ∃ rest, l = origin :: rest.
Proof.
  intros H. apply find_cycle_loop_shape in H as [Hhead _]; [done|].
  split; [right; by exists []|]. left. exists []. split; [done|].
  intros x Hx. by apply elem_of_nil in Hx.
Qed.

Lemma find_cycle_common_fuel graph (l : list Node) :
  (∀ n e, e ∈ get_outbound_edges n graph → destination e ∈ nodes graph) →
  ∃ fuel0, ∀ fuel n, (fuel0 ≤ fuel)%nat → n ∈ l → ∃ r, _find_cycle fuel graph n = Ok r.
Proof.
  intros Hclosed. induction l as [|x l [f0 IH]].
  - exists 0%nat. intros fuel n _ Hn. by apply elem_of_nil in Hn.
  - destruct (find_cycle_loop_terminates graph x (x :: nodes graph)) 
      with (u := unexplored (x :: nodes graph) []) (w := weight x [x] [])
           (root := x) (stack := [x]) (explored := @nil Node)
      as (fx & rx & Hx); [intros n e He; right; by eapply Hclosed | set_solver..|].
    exists (f0 `max` fx)%nat. intros fuel n Hle [->|Hn]%elem_of_cons.
    + exists rx. eapply find_cycle_mono; [exact Hx|lia].
    + apply IH; [lia|done].
Qed.

Lemma circular_description_ok (cycles : list (list Node)) :
  (∀ cycle, cycle ∈ cycles → cycle ≠ []) →
  ∃ out,
    result (for_each cycles (λ description_body cycle,
              match cycle with
              | [] => raise IndexError
              | first :: _ =>
                ret (description_body +:+ "* " +:+
                     join " -> " ((searchable_name <$> cycle) ++ [searchable_name first]) +:+
                     nl)
              end) "") = Ok out ∧
    ∀ cycle first rest, cycle ∈ cycles → cycle = first :: rest →
                        occurs_in (cycle_line cycle first) out.
Proof.
  intros Hne.
  set (g := λ cycle : list Node,
         match cycle with first :: _ => cycle_line cycle first | [] => "" end).
  match goal with
  | |- ∃ out, result (for_each cycles ?body "") = _ ∧ _ =>
    destruct (for_each_append_occurs g cycles body) with (s := "")
      as (out & Hout & _ & Hall)
  end.
  { intros s [|first rest] Hc; [by destruct (Hne _ Hc)|]. done. }
  exists out. split; [done|]. intros cycle first rest Hc ->. apply (Hall _ Hc).
Qed.

(** X12.  On a graph whose edges lead to nodes of the graph, the
    circular-access rule returns once its searches are given enough
    iterations: it raises nothing of its own, and it returns at most one
    finding. *)
Theorem gen_circular_access_finding_returns (graph : Graph) :
  (∀ n e, e ∈ get_outbound_edges n graph → destination e ∈ nodes graph) →
  ∃ fuel0, ∀ fuel, (fuel0 ≤ fuel)%nat →
    ∃ r, result (gen_circular_access_finding fuel graph) = Ok r ∧ (length r ≤ 1)%nat.
Proof.
  intros Hclosed.
  destruct (find_cycle_common_fuel graph (nodes graph) Hclosed) as [fuel0 Hfuel].
  exists fuel0. intros fuel Hle.
  assert (Hscan : ∃ cycles, result (circular_cycles fuel graph) = Ok cycles).
  { apply for_each_result_total. intros s x Hx. cbv beta.
    destruct (is_admin x); [by eexists|].
    destruct (Hfuel fuel x Hle Hx) as [r Hr].
    unfold call_find_cycle, bind, emit, ret. simpl. rewrite Hr.
    destruct r; by eexists. }
  destruct Hscan as [cycles Hcycles].
  destruct (circular_description_ok cycles) as (out & Hout & _).
  { intros cycle Hc. destruct (circular_cycles_sound _ _ _ Hcycles _ Hc) as (o & _ & _ & Ho).
    apply find_cycle_nonempty in Ho as [rest ->]. done. }
  unfold gen_circular_access_finding.
  rewrite (result_bind_Ok (emit _) _ tt) by done.
  rewrite (result_bind_Ok _ _ _ Hcycles).
  case_bool_decide.
  - rewrite (result_bind_Ok _ _ _ Hout). eexists. split; [reflexivity|simpl; lia].
  - eexists. split; [reflexivity|simpl; lia].
Qed.

(** X13.  When the scan of the circular-access rule finds cycles, the rule
    returns exactly one finding, of severity Low, and for each cycle found
    its description holds the names of the nodes of the cycle joined by
    [" -> "], with the name of the first node repeated at the end. *)
Theorem gen_circular_access_finding_renders (fuel : nat) (graph : Graph)
    (cycles : list (list Node)) (cycle : list Node) :
  result (circular_cycles fuel graph) = Ok cycles → cycle ∈ cycles →
  ∃ f first rest,
    cycle = first :: rest ∧
    result (gen_circular_access_finding fuel graph) = Ok [f] ∧
    severity f = "Low" ∧
    occurs_in (cycle_line cycle first) (description f).
Proof.
  intros Hcycles Hin.
  destruct (circular_description_ok cycles) as (out & Hout & Hall).
  { intros c Hc. destruct (circular_cycles_sound _ _ _ Hcycles _ Hc) as (o & _ & _ & Ho).
    apply find_cycle_nonempty in Ho as [rest ->]. done. }
  destruct (circular_cycles_sound _ _ _ Hcycles _ Hin) as (o & _ & _ & Ho).
  apply find_cycle_nonempty in Ho as [rest ->].
  unfold gen_circular_access_finding.
  rewrite (result_bind_Ok (emit _) _ tt) by done.
  rewrite (result_bind_Ok _ _ _ Hcycles).
  rewrite bool_decide_true by (apply length_pos_nonnil; intros ->; by apply elem_of_nil in Hin).
  rewrite (result_bind_Ok _ _ _ Hout).
  eexists _, o, rest. split; [done|]. split; [reflexivity|]. split; [reflexivity|].
  simpl. apply occurs_in_app_r. by eapply Hall.
Qed.

End CircularRule.

(** ** The confused-deputy rule without account identifier *)

Lemma for_each_skip {A S} (l : list A) (body : S → A → M S) :
  (∀ s x, x ∈ l → body s x = ret s) → ∀ s, for_each l body s = ret s.
Proof.
  induction l as [|x l IH]; intros Hb s; simpl; [done|].
  rewrite Hb by left. unfold bind, ret at 1.
  rewrite IH; [done|]. intros s' y Hy. apply Hb. by right.
Qed.

Section ConfusedDeputyEdges.

Context `{Q : Querying}.

(** X14.  Without account identifier in the metadata, the confused-deputy
    rule returns no finding when the graph has no policy of an S3 resource,
    and raises [KeyError] as soon as it has one. *)
Theorem confused_deputy_without_account_id (graph : Graph) :
  metadata graph !! "account_id" = None →
  ((∀ policy, policy ∈ policies graph → get_service (policy_arn policy) ≠ "s3") →
   result (gen_resources_with_potential_confused_deputies graph) = Ok []) ∧
  (∀ policy, policy ∈ policies graph → get_service (policy_arn policy) = "s3" →
   result (gen_resources_with_potential_confused_deputies graph)
     = Raise (KeyError "account_id")).
Proof.
  intros Hmeta. unfold gen_resources_with_potential_confused_deputies.
  rewrite (result_bind_Ok (emit _) _ tt) by done.
  unfold confused_deputy_affected_policies, resource_service_action_map.
  cbn [for_each]. split.
  - intros Hno. rewrite for_each_skip; [done|].
    intros s x Hx. by rewrite bool_decide_false by by apply Hno.
  - intros policy Hin Hs3.
    match goal with
    | |- result (bind (bind ?m _) _) = _ =>
      assert (Hscan : result m = Raise (KeyError "account_id"))
    end.
    { apply (for_each_raises _ _ _ policy); [done| |].
      - intros s. rewrite bool_decide_true by done.
        cbn [for_each]. unfold metadata_get. by rewrite Hmeta.
      - intros s x _. case_bool_decide; [right|left; by eexists].
        cbn [for_each]. unfold metadata_get. by rewrite Hmeta. }
    destruct (for_each _ _ _) as [t o]. simpl in *. by subst o.
Qed.

(** X15.  The confused-deputy rule evaluates only policies of the graph
    whose ARN names the service [s3], only for the serverless repository and
    only for the action [s3:GetObject]. *)
Theorem confused_deputy_queries (graph : Graph) :
  Forall (confused_deputy_query_ok graph)
         (trace (gen_resources_with_potential_confused_deputies graph)).
Proof.
  unfold gen_resources_with_potential_confused_deputies,
    confused_deputy_affected_policies, resource_service_action_map.
  apply trace_bind_Forall; [by apply Forall_singleton|]. intros _.
  apply trace_bind_Forall; [|intros l; case_bool_decide; apply Forall_nil_2].
  cbn [for_each]. apply trace_bind_Forall; [|intros; apply Forall_nil_2].
  apply trace_for_each_Forall. intros s policy Hin.
  case_bool_decide as Hs3; [|apply Forall_nil_2].
  cbn [for_each]. unfold metadata_get, call_resource_policy_authorization.
  destruct (metadata graph !! "account_id"); repeat trace_step; try done.
  all: simpl; eauto 10.
Qed.

End ConfusedDeputyEdges.

(** ** The aggregate *)

Ltac rule_output :=
  let r := fresh "r" in
  let Hr := fresh "Hr" in
  intros r Hr;
  do 2 (apply result_bind_Ok_inv in Hr as (? & _ & Hr));
  case_bool_decide;
  try (apply result_bind_Ok_inv in Hr as (? & _ & Hr));
  cbv zeta in Hr; unfold result, ret in Hr; cbn [snd] in Hr;
  injection Hr as <-;
  (split; [simpl; lia|]);
  intros ? Hf;
  [ apply list_elem_of_singleton in Hf as ->; cbn [severity];
    apply (bool_decide_unpack _); vm_compute; exact I
  | by apply elem_of_nil in Hf ].

Section Aggregate.

Context `{Q : Querying}.

Lemma gen_privesc_findings_output graph :
  ∀ r, result (gen_privesc_findings graph) = Ok r → rule_output_ok r.
Proof. unfold gen_privesc_findings. rule_output. Qed.

Lemma gen_admin_users_without_mfa_finding_output graph :
  ∀ r, result (gen_admin_users_without_mfa_finding graph) = Ok r → rule_output_ok r.
Proof. unfold gen_admin_users_without_mfa_finding. rule_output. Qed.

Lemma gen_mfa_actions_findings_output graph :
  ∀ r, result (gen_mfa_actions_findings graph) = Ok r → rule_output_ok r.
Proof. unfold gen_mfa_actions_findings. rule_output. Qed.

Lemma gen_overprivileged_function_findings_output graph :
  ∀ r, result (gen_overprivileged_function_findings graph) = Ok r → rule_output_ok r.
Proof. unfold gen_overprivileged_function_findings. rule_output. Qed.

Lemma gen_overprivileged_instance_profile_findings_output graph :
  ∀ r, result (gen_overprivileged_instance_profile_findings graph) = Ok r →
       rule_output_ok r.
Proof. unfold gen_overprivileged_instance_profile_findings. rule_output. Qed.

Lemma gen_overprivileged_stack_findings_output graph :
  ∀ r, result (gen_overprivileged_stack_findings graph) = Ok r → rule_output_ok r.
Proof. unfold gen_overprivileged_stack_findings. rule_output. Qed.

Lemma gen_os_lpe_finding_output graph :
  ∀ r, result (gen_os_lpe_finding graph) = Ok r → rule_output_ok r.
Proof. unfold gen_os_lpe_finding. rule_output. Qed.

Lemma gen_circular_access_finding_output fuel graph :
  ∀ r, result (gen_circular_access_finding fuel graph) = Ok r → rule_output_ok r.
Proof. unfold gen_circular_access_finding. rule_output. Qed.

Lemma gen_resources_with_potential_confused_deputies_output graph :
  ∀ r, result (gen_resources_with_potential_confused_deputies graph) = Ok r →
       rule_output_ok r.
Proof. unfold gen_resources_with_potential_confused_deputies. rule_output. Qed.

(** X16.  [gen_all_findings] returns normally exactly when each of its eight
    rules does, and then its list is the lists of the rules one after the
    other in the order of the calls; when a rule raises, no findings are
    returned. *)
Theorem gen_all_findings_concat (fuel : nat) (graph : Graph) (r : list Finding) :
  result (gen_all_findings fuel graph) = Ok r ↔
  ∃ r1 r2 r3 r4 r5 r6 r7 r8,
    result (gen_privesc_findings graph) = Ok r1 ∧
    result (gen_admin_users_without_mfa_finding graph) = Ok r2 ∧
    result (gen_mfa_actions_findings graph) = Ok r3 ∧
    result (gen_overprivileged_function_findings graph) = Ok r4 ∧
    result (gen_overprivileged_instance_profile_findings graph) = Ok r5 ∧
    result (gen_overprivileged_stack_findings graph) = Ok r6 ∧
    result (gen_os_lpe_finding graph) = Ok r7 ∧
    result (gen_circular_access_finding fuel graph) = Ok r8 ∧
    r = r1 ++ r2 ++ r3 ++ r4 ++ r5 ++ r6 ++ r7 ++ r8.
Proof.
  unfold gen_all_findings. split.
  - intros H.
    apply result_bind_Ok_inv in H as (r1 & H1 & H).
    apply result_bind_Ok_inv in H as (r2 & H2 & H).
    apply result_bind_Ok_inv in H as (r3 & H3 & H).
    apply result_bind_Ok_inv in H as (r4 & H4 & H).
    apply result_bind_Ok_inv in H as (r5 & H5 & H).
    apply result_bind_Ok_inv in H as (r6 & H6 & H).
    apply result_bind_Ok_inv in H as (r7 & H7 & H).
    apply result_bind_Ok_inv in H as (r8 & H8 & H).
    injection H as <-. exists r1, r2, r3, r4, r5, r6, r7, r8.
    repeat (split; [done|]). simpl. by rewrite <- ?app_assoc.
  - intros (r1 & r2 & r3 & r4 & r5 & r6 & r7 & r8 &
            H1 & H2 & H3 & H4 & H5 & H6 & H7 & H8 & ->).
    rewrite (result_bind_Ok _ _ _ H1), (result_bind_Ok _ _ _ H2),
      (result_bind_Ok _ _ _ H3), (result_bind_Ok _ _ _ H4),
      (result_bind_Ok _ _ _ H5), (result_bind_Ok _ _ _ H6),
      (result_bind_Ok _ _ _ H7), (result_bind_Ok _ _ _ H8).
    cbv zeta. unfold result, ret. cbn [snd]. simpl. by rewrite <- ?app_assoc.
Qed.

Lemma gen_all_findings_parts fuel graph r :
  result (gen_all_findings fuel graph) = Ok r →
  ∃ parts, r = concat parts ∧ length parts = 8%nat ∧ Forall rule_output_ok parts.
Proof.
  unfold gen_all_findings. intros H.
  apply result_bind_Ok_inv in H as (r1 & H1%gen_privesc_findings_output & H).
  apply result_bind_Ok_inv in H as (r2 & H2%gen_admin_users_without_mfa_finding_output & H).
  apply result_bind_Ok_inv in H as (r3 & H3%gen_mfa_actions_findings_output & H).
  apply result_bind_Ok_inv in H as (r4 & H4%gen_overprivileged_function_findings_output & H).
  apply result_bind_Ok_inv in H
    as (r5 & H5%gen_overprivileged_instance_profile_findings_output & H).
  apply result_bind_Ok_inv in H as (r6 & H6%gen_overprivileged_stack_findings_output & H).
  apply result_bind_Ok_inv in H as (r7 & H7%gen_os_lpe_finding_output & H).
  apply result_bind_Ok_inv in H as (r8 & H8%gen_circular_access_finding_output & H).
  injection H as <-. exists [r1; r2; r3; r4; r5; r6; r7; r8].
  split; [|split; [done|repeat (apply Forall_cons_2; [assumption|]); apply Forall_nil_2]].
  simpl. by rewrite app_nil_r, <- ?app_assoc.
Qed.

(** X17.  [gen_all_findings] returns at most eight findings, and the
    severity of each is Low, Medium or High. *)
Theorem gen_all_findings_bounds (fuel : nat) (graph : Graph) (r : list Finding) :
  result (gen_all_findings fuel graph) = Ok r →
  (length r ≤ 8)%nat ∧ ∀ f, f ∈ r → severity f ∈ severities.
Proof.
  intros (parts & -> & Hlen & Hparts)%gen_all_findings_parts. split.
  - assert (Hb : ∀ ps, Forall rule_output_ok ps → (length (concat ps) ≤ length ps)%nat).
    { induction 1 as [|p ps [Hp _] _ IH]; simpl; [done|]. rewrite length_app. lia. }
    specialize (Hb _ Hparts). lia.
  - intros f Hf. apply list_elem_of_In, in_concat in Hf as (p & Hp & Hf).
    apply list_elem_of_In in Hp, Hf. eapply Forall_forall in Hparts; [|exact Hp]. by apply Hparts.
Qed.

(** X18.  [gen_report] returns a report exactly when the metadata of the
    graph has an account identifier and [gen_all_findings] returns; the
    report then holds that identifier, the clock reading, the findings of
    [gen_all_findings] unchanged, and the provenance text with the version
    in it. *)
Theorem gen_report_returns (fuel : nat) (now : Z) (version : string) (graph : Graph)
    (report : Report) :
  result (gen_report fuel now version graph) = Ok report ↔
  ∃ account_id fs,
    metadata graph !! "account_id" = Some account_id ∧
    result (gen_all_findings fuel graph) = Ok fs ∧
    report = {| account := account_id; date_and_time := now; findings := fs;
                report_source :=
                  "Findings identified using Principal Mapper (" +:+ version +:+
                  ") from NCC Group: https://github.com/nccgroup/PMapper" |}.
Proof.
  unfold gen_report, metadata_get. split.
  - intros (fs & Hfs & H)%result_bind_Ok_inv.
    destruct (metadata graph !! "account_id") as [a|]; [|done].
    injection H as <-. eauto.
  - intros (a & fs & Hmeta & Hfs & ->).
    by rewrite (result_bind_Ok _ _ _ Hfs), Hmeta.
Qed.

End Aggregate.

(** ** Printing *)

Lemma printed_text_occurs (prints : list string) (x : string) :
  x ∈ prints → occurs_in x (printed_text prints).
Proof.
  induction prints as [|y prints IH]; intros Hin; [by apply elem_of_nil in Hin|].
  simpl. apply elem_of_cons in Hin as [<-|Hin].
  - apply occurs_in_app_l, occurs_in_refl.
  - apply occurs_in_app_r, occurs_in_app_r. by apply IH.
Qed.

Lemma occurs_in_trans (a b c : string) : occurs_in a b → occurs_in b c → occurs_in a c.
Proof.
  intros (p1 & q1 & ->) (p2 & q2 & ->).
  exists (p2 +:+ p1), (q1 +:+ q2). by rewrite !str_app_assoc.
Qed.

Lemma print_report_layout_sub (isoformat : Z → string) (report : Report) :
  sublist (finding_block <$> findings report) (print_report isoformat report).
Proof.
  unfold print_report. apply sublist_inserts_l, sublist_inserts_r.
  case_bool_decide as Hlen; [|done].
  destruct (findings report); [apply sublist_nil_l|done].
Qed.

(** X19.  Whatever the report, [print_report] prints the banner first and
    last, prints the blocks of the findings in the order of the report, and
    prints ["None found."] when the report has no finding. *)
Theorem print_report_layout (isoformat : Z → string) (report : Report) :
  head (print_report isoformat report) = Some report_banner ∧
  last (print_report isoformat report) = Some report_banner ∧
  sublist (finding_block <$> findings report) (print_report isoformat report) ∧
  (findings report = [] → "None found." ∈ print_report isoformat report) ∧
  length (print_report isoformat report)
    = (11 + (if decide (findings report = []) then 2 else length (findings report)))%nat.
Proof.
  unfold print_report. split; [done|]. split.
  { change [""; report_banner] with ([""] ++ [report_banner]).
    rewrite !app_assoc. apply last_snoc. }
  split; [apply print_report_layout_sub|].
  split.
  { intros ->. simpl. set_solver. }
  rewrite !length_app. simpl.
  destruct (findings report) as [|f fs]; simpl; [done|].
  rewrite length_fmap. lia.
Qed.

(** X20.  The text printed for a report holds the title, the severity, the
    impact, the description and the recommendation of every finding of the
    report. *)
Theorem print_report_shows_finding (isoformat : Z → string) (report : Report)
    (f : Finding) :
  f ∈ findings report →
  let text := printed_text (print_report isoformat report) in
  occurs_in (title f) text ∧ occurs_in (severity f) text ∧ occurs_in (impact f) text ∧
  occurs_in (description f) text ∧ occurs_in (recommendation f) text.
Proof.
  intros Hin text.
  assert (Hblock : occurs_in (finding_block f) text).
  { apply printed_text_occurs. unfold print_report.
    rewrite bool_decide_false by (destruct (findings report); [by apply elem_of_nil in Hin|done]).
    apply elem_of_app. right. apply elem_of_app. left.
    apply list_elem_of_fmap. eauto. }
  repeat split; (eapply occurs_in_trans; [|exact Hblock]); unfold finding_block.
  - apply occurs_in_app_r, occurs_in_app_l, occurs_in_refl.
  - do 7 apply occurs_in_app_r. apply occurs_in_app_l, occurs_in_refl.
  - do 13 apply occurs_in_app_r. apply occurs_in_app_l, occurs_in_refl.
  - do 19 apply occurs_in_app_r. apply occurs_in_app_l, occurs_in_refl.
  - do 25 apply occurs_in_app_r. apply occurs_in_app_l, occurs_in_refl.
Qed.

Section PrintedRun.

Context `{Q : Querying}.

(** X21.  With the format ["text"], an account identifier in the metadata
    and rules that return, [gen_findings_and_print] prints the report of
    [gen_all_findings], and ["None found."] is among what it prints exactly
    when the rules returned no finding. *)
Theorem gen_findings_and_print_none_found (fuel : nat) (now : Z) (version : string)
    (isoformat : Z → string) (json_dumps : Report → string) (graph : Graph)
    (account_id : string) (fs : list Finding) :
  metadata graph !! "account_id" = Some account_id →
  result (gen_all_findings fuel graph) = Ok fs →
  ∃ prints,
    result (gen_findings_and_print fuel now version isoformat json_dumps graph "text")
      = Ok prints ∧
    sublist (finding_block <$> fs) prints ∧
    ("None found." ∈ prints ↔ fs = []).
Proof.
  intros Hmeta Hfs. unfold gen_findings_and_print, gen_report, metadata_get.
  rewrite Hmeta.
  erewrite result_bind_Ok; [|by erewrite result_bind_Ok].
  rewrite bool_decide_true by done.
  eexists. split; [reflexivity|].
  set (report := {| account := account_id; date_and_time := now; findings := fs;
                    report_source := _ |}).
  split; [apply (print_report_layout_sub isoformat report)|].
  unfold print_report. cbn [findings account date_and_time report_source report].
  destruct fs as [|f fs]; simpl.
  - split; [done|]. intros _. set_solver.
  - split; [|done]. intros Hin.
    repeat (apply elem_of_cons in Hin as [Hin|Hin]; [discriminate Hin|]).
    apply elem_of_app in Hin as [Hin|Hin].
    + apply list_elem_of_fmap in Hin as (f' & Hf' & _). discriminate Hf'.
    + repeat (apply elem_of_cons in Hin as [Hin|Hin]; [discriminate Hin|]).
      by apply elem_of_nil in Hin.
Qed.

(** X22.  Without account identifier in the metadata, and with rules that
    return, [gen_findings_and_print] prints nothing and raises [KeyError],
    whatever the format. *)
Theorem gen_findings_and_print_without_account_id (fuel : nat) (now : Z)
    (version : string) (isoformat : Z → string) (json_dumps : Report → string)
    (graph : Graph) (formatting : string) (fs : list Finding) :
  metadata graph !! "account_id" = None →
  result (gen_all_findings fuel graph) = Ok fs →
  result (gen_findings_and_print fuel now version isoformat json_dumps graph formatting)
    = Raise (KeyError "account_id").
Proof.
  intros Hmeta Hfs. unfold gen_findings_and_print, gen_report, metadata_get.
  rewrite Hmeta.
  destruct (gen_all_findings fuel graph) as [t o]. simpl in *. by subst o.
Qed.

End PrintedRun.

(** ** Runs of the further properties on concrete graphs *)

Lemma find_cycle_result_ends_witness :
  @_find_cycle quiet_querying 20 complete_graph role_A = Ok (Some [role_A; role_B]) ∧
  ∃ x e, last [role_A; role_B] = Some x ∧
         e ∈ @get_outbound_edges quiet_querying x complete_graph ∧
         destination e = role_A.
Proof.
  assert (H : @_find_cycle quiet_querying 20 complete_graph role_A
              = Ok (Some [role_A; role_B])) by (vm_compute; reflexivity).
  split; [exact H|].
  exact (proj2 (@find_cycle_result_ends quiet_querying 20 complete_graph role_A _ H)).
Defined.

Lemma complete_graph_no_self_loop (n : Node) (e : Edge) :
  e ∈ @get_outbound_edges quiet_querying n complete_graph → destination e ≠ n.
Proof.
  intros [Hsrc He]%list_elem_of_filter. simpl in He.
  repeat (apply elem_of_cons in He as [->|He]); simpl in *; try (by subst n).
  by apply elem_of_nil in He.
Qed.

Lemma find_cycle_result_distinct_witness :
  @_find_cycle quiet_querying 20 complete_graph role_C = Ok (Some [role_C; role_A]) ∧
  NoDup [role_C; role_A].
Proof.
  assert (H : @_find_cycle quiet_querying 20 complete_graph role_C
              = Ok (Some [role_C; role_A])) by (vm_compute; reflexivity).
  split; [exact H|].
  exact (@find_cycle_result_distinct quiet_querying 20 complete_graph role_C _
           complete_graph_no_self_loop H).
Defined.

Lemma gen_overprivileged_instance_profile_findings_none_witness :
  instance_profile role_Admin = None ∧
  result (@gen_overprivileged_instance_profile_findings quiet_querying alice_graph)
    = Raise TypeError.
Proof.
  split; [reflexivity|].
  apply (@gen_overprivileged_instance_profile_findings_none quiet_querying
           alice_graph role_Admin); [|reflexivity..].
  apply (bool_decide_unpack _). vm_compute. exact I.
Defined.

Lemma gen_privesc_findings_empty_path_witness :
  @can_privesc pathless_querying alice_graph user_Alice = (true, []) ∧
  result (@gen_privesc_findings pathless_querying alice_graph) = Raise IndexError.
Proof.
  split; [reflexivity|].
  apply (@gen_privesc_findings_empty_path pathless_querying alice_graph user_Alice);
    [|reflexivity..].
  apply (bool_decide_unpack _). vm_compute. exact I.
Defined.

Lemma one_hop_privesc_path (graph : Graph) (n : Node) (el : list Edge) :
  one_hop_privesc graph n = (true, el) → el ≠ [].
Proof. unfold one_hop_privesc. destruct (filter _ _); by intros [= <-]. Qed.

Lemma gen_privesc_findings_reports_witness :
  ∃ f, result (@gen_privesc_findings quiet_querying alice_graph) = Ok [f] ∧
       severity f = "High" ∧
       occurs_in (@privesc_lines quiet_querying user_Alice
                    [access_edge user_Alice role_Admin] role_Admin)
                 (description f).
Proof.
  apply (@gen_privesc_findings_reports quiet_querying alice_graph user_Alice
           [access_edge user_Alice role_Admin] (access_edge user_Alice role_Admin)).
  - intros n el _ _. apply one_hop_privesc_path.
  - apply (bool_decide_unpack _). vm_compute. exact I.
  - reflexivity.
  - vm_compute. reflexivity.
  - reflexivity.
Defined.

Lemma gen_circular_access_finding_returns_witness :
  ∃ fuel0, ∀ fuel, (fuel0 ≤ fuel)%nat →
    ∃ r, result (@gen_circular_access_finding quiet_querying fuel complete_graph) = Ok r ∧
         (length r ≤ 1)%nat.
Proof.
  exact (@gen_circular_access_finding_returns quiet_querying complete_graph
           complete_graph_closed).
Defined.

Lemma gen_circular_access_finding_renders_witness :
  result (@circular_cycles quiet_querying 20 complete_graph)
    = Ok [[role_A; role_B]; [role_B; role_A]; [role_C; role_A]] ∧
  ∃ f first rest,
    [role_C; role_A] = first :: rest ∧
    result (@gen_circular_access_finding quiet_querying 20 complete_graph) = Ok [f] ∧
    severity f = "Low" ∧
    occurs_in (@cycle_line quiet_querying [role_C; role_A] first) (description f).
Proof.
  assert (H : result (@circular_cycles quiet_querying 20 complete_graph)
              = Ok [[role_A; role_B]; [role_B; role_A]; [role_C; role_A]])
    by (vm_compute; reflexivity).
  split; [exact H|].
  apply (@gen_circular_access_finding_renders quiet_querying 20 complete_graph _ _ H).
  apply (bool_decide_unpack _). vm_compute. exact I.
Defined.

Lemma confused_deputy_without_account_id_witness :
  metadata anonymous_bucket_graph !! "account_id" = None ∧
  result (@gen_resources_with_potential_confused_deputies quiet_querying
            anonymous_bucket_graph) = Raise (KeyError "account_id").
Proof.
  split; [reflexivity|].
  apply (proj2 (@confused_deputy_without_account_id quiet_querying
                  anonymous_bucket_graph eq_refl) scoped_bucket_policy).
  - simpl. left.
  - reflexivity.
Defined.

Lemma gen_all_findings_bounds_witness :
  result (@gen_all_findings quiet_querying 20 complete_graph) = Ok complete_graph_findings ∧
  (length complete_graph_findings ≤ 8)%nat.
Proof.
  assert (H : result (@gen_all_findings quiet_querying 20 complete_graph)
              = Ok complete_graph_findings) by (vm_compute; reflexivity).
  split; [exact H|].
  exact (proj1 (@gen_all_findings_bounds quiet_querying 20 complete_graph _ H)).
Defined.

Lemma print_report_shows_finding_witness :
  complete_graph_finding ∈ findings complete_graph_report ∧
  occurs_in (title complete_graph_finding)
            (printed_text (print_report sample_isoformat complete_graph_report)).
Proof.
  assert (H : complete_graph_finding ∈ findings complete_graph_report)
    by (vm_compute; left).
  split; [exact H|].
  exact (proj1 (print_report_shows_finding sample_isoformat complete_graph_report
                  complete_graph_finding H)).
Defined.

Lemma gen_findings_and_print_none_found_witness :
  ∃ prints,
    result (@gen_findings_and_print quiet_querying 20 0 "1.1.5" sample_isoformat
              (λ _, "{}") complete_graph "text") = Ok prints ∧
    sublist (finding_block <$> complete_graph_findings) prints ∧
    ("None found." ∈ prints ↔ complete_graph_findings = []).
Proof.
  apply (@gen_findings_and_print_none_found quiet_querying 20 0 "1.1.5" sample_isoformat
           (λ _, "{}") complete_graph "000000000000" complete_graph_findings).
  - reflexivity.
  - vm_compute. reflexivity.
Defined.

Lemma gen_findings_and_print_without_account_id_witness :
  result (@gen_findings_and_print quiet_querying 5 0 "1.1.5" sample_isoformat
            (λ _, "{}") anonymous_graph "json") = Raise (KeyError "account_id").
Proof.
  apply (@gen_findings_and_print_without_account_id quiet_querying 5 0 "1.1.5"
           sample_isoformat (λ _, "{}") anonymous_graph "json" []).
  - reflexivity.
  - vm_compute. reflexivity.
Defined.
